(** * dpd_demo: DPD potential, HNC thermodynamic integrals and report

    A shallow embedding of [dpd_demo.py] (pyHNC).  The script builds the
    standard DPD pair potential and force on a radial grid, hands the
    potential to the HNC solver, integrates the returned pair correlation
    into the excess energy density and the virial pressure, prints a short
    report and, on request, compares with SunlightHNC and plots g(r), S(q).

    Number model.  numpy's [float64] arrays are lists of reals and Python
    floats are reals: arithmetic is exact ([Stdlib.Reals]), rounding,
    infinities and NaN are outside the model.  Everything that is not
    arithmetic is modelled as the interpreter runs it: numpy broadcasting
    and its errors, slices, boolean-mask indexing, the order of the
    printed lines and of the plotting calls. *)

From Stdlib Require Import String Reals Lra List Bool Arith ZArith Lia.
From Stdlib Require Import Sorted FunctionalExtensionality.
Import ListNotations.
Open Scope R_scope.

(** ** Exceptions and results *)

(** The exceptions a run can end with.  [ShapeMismatch] is numpy's
    [ValueError: operands could not be broadcast together with shapes
    (n,) (m,)]; [IndexMismatch] is its [IndexError: boolean index did not
    match indexed array]; [NotFinite] stands for what [int(x / 0)] raises;
    the last two are raised by the collaborators (solver, reference
    engine) and only propagated. *)
Inductive error : Type :=
| ShapeMismatch
| IndexMismatch
| NotFinite
| SolverDidNotConverge
| ReferenceUnavailable.

Inductive result (X : Type) : Type :=
| Ok (x : X)
| Err (e : error).
Arguments Ok {X} x.
Arguments Err {X} e.

Definition rbind {X Y : Type} (c : result X) (k : X -> result Y) : result Y :=
  match c with
  | Ok x => k x
  | Err e => Err e
  end.

Declare Scope result_scope.
Delimit Scope result_scope with result.
Notation "x <- c ;; k" := (rbind c (fun x => k))
  (at level 61, c at next level, right associativity) : result_scope.

(** ** numpy on one-dimensional arrays *)

Module np.

(** [a * v], [a + v], [a - v], [v / c], [v ** n] with a scalar operand:
    the scalar is applied to every element. *)
Definition smul (a : R) (v : list R) : list R := map (fun x => a * x) v.
Definition sadd (a : R) (v : list R) : list R := map (fun x => a + x) v.
Definition rsub (a : R) (v : list R) : list R := map (fun x => a - x) v.
Definition divs (v : list R) (c : R) : list R := map (fun x => x / c) v.
Definition power (v : list R) (n : nat) : list R := map (fun x => x ^ n) v.

(** Elementwise combination of two arrays of one length. *)
Fixpoint zip_with (op : R -> R -> R) (x y : list R) : list R :=
  match x, y with
  | a :: x', b :: y' => op a b :: zip_with op x' y'
  | _, _ => []
  end.

(** A binary ufunc on shapes [(n,)] and [(m,)]: the shapes are compatible
    when [n = m] or one of them is 1, and the length-1 operand is then
    stretched along the other; anything else raises. *)
Definition broadcast (op : R -> R -> R) (x y : list R) : result (list R) :=
  if Nat.eqb (length x) (length y) then Ok (zip_with op x y)
  else match x, y with
       | [a], _ => Ok (map (fun b => op a b) y)
       | _, [b] => Ok (map (fun a => op a b) x)
       | _, _ => Err ShapeMismatch
       end.

Definition multiply : list R -> list R -> result (list R) := broadcast Rmult.

(** [v.sum()]: the sum of the elements, 0 for an empty array.  (numpy adds
    pairwise in blocks; in exact arithmetic the order is immaterial.) *)
Definition sum (v : list R) : R := fold_left Rplus v 0.

(** The slices [y[1:]] and [y[:-1]]. *)
Definition from1 (y : list R) : list R := tl y.
Definition upto_last (y : list R) : list R := removelast y.

(** [np.trapz(y, dx=d)]:
    [(d * (y[1:] + y[:-1]) / 2.0).sum()].
    The two slices always have one length, so the sum of the slices
    cannot raise. *)
Definition trapz (y : list R) (dx : R) : R :=
  sum (divs (smul dx (zip_with Rplus (from1 y) (upto_last y))) 2).

(** [x < c] for an array [x] and a scalar [c]: a boolean array. *)
Definition ltb (a b : R) : bool := if Rlt_dec a b then true else false.
Definition less (x : list R) (c : R) : list bool := map (fun a => ltb a c) x.

(** [x[mask]] for a boolean array [mask]: the elements where the mask is
    true, and an [IndexError] when the lengths differ. *)
Fixpoint select (x : list R) (mask : list bool) : list R :=
  match x, mask with
  | a :: x', b :: mask' => if b then a :: select x' mask' else select x' mask'
  | _, _ => []
  end.

Definition take_mask (x : list R) (mask : list bool) : result (list R) :=
  if Nat.eqb (length x) (length mask) then Ok (select x mask)
  else Err IndexMismatch.

(** [x[0:stop]] for a Python integer [stop]: a negative [stop] counts from
    the end, and the slice is clipped to the array. *)
Definition slice_to (x : list R) (stop : Z) : list R :=
  if (stop <? 0)%Z then firstn (Z.to_nat (Z.of_nat (length x) + stop)) x
  else firstn (Z.to_nat stop) x.

End np.

(** [int(x)] for a float: truncation towards zero. *)
Definition py_int (x : R) : Z :=
  if Rle_dec 0 x then Int_part x else (- Int_part (- x))%Z.

(** ** pyHNC collaborators *)

(** Modelled from the spec: [truncate_to_zero(v, r, rc)] of the [pyHNC]
    package is imported by the script and not part of the sources at hand.
    The spec fixes its result: the value is kept where [r < rc] and is a
    hard zero elsewhere ("for r < 1, else 0"; "values at r >= 1 are
    bit-exact zero"). *)
Definition truncate_to_zero (v r : list R) (rc : R) : list R :=
  np.zip_with (fun vi ri => if Rlt_dec ri rc then vi else 0) v r.

(** [grid.r], [grid.deltar], [grid.q] and [grid.version]. *)
Record Grid : Type := mkGrid {
  grid_r : list R;
  grid_deltar : R;
  grid_q : list R;
  grid_version : string
}.

(** What [solver.solve] returns: [soln.hr] and [soln.hq]. *)
Record Soln : Type := mkSoln {
  soln_hr : list R;
  soln_hq : list R
}.

(** The HNC solver, [solve(phi, rho)]; it may raise. *)
Definition Solver : Type := list R -> R -> result Soln.

(** ** Lines 67-68: the DPD potential and the force *)

(** [truncate_to_zero(A/2*(1-r)**2, r, 1)] *)
Definition dpd_potential (A : R) (r : list R) : list R :=
  truncate_to_zero (np.smul (A / 2) (np.power (np.rsub 1 r) 2)) r 1.

(** [truncate_to_zero(A*(1-r), r, 1)] *)
Definition dpd_force (A : R) (r : list R) : list R :=
  truncate_to_zero (np.smul A (np.rsub 1 r)) r 1.

(** ** Lines 85-86: energy density and virial pressure *)

Local Open Scope result_scope.

(** [e = 2*pi*rho**2 * (A/60 + np.trapz(r**2*phi*hr, dx=deltar))] *)
Definition energy_density (A rho : R) (r : list R) (deltar : R)
  (phi hr : list R) : result R :=
  r2phi <- np.multiply (np.power r 2) phi ;;
  y <- np.multiply r2phi hr ;;
  Ok (2 * PI * rho ^ 2 * (A / 60 + np.trapz y deltar)).

(** [p = rho + 2*pi*rho**2/3 * (A/20 + np.trapz(r**3*f*hr, dx=deltar))] *)
Definition virial_pressure (A rho : R) (r : list R) (deltar : R)
  (f hr : list R) : result R :=
  r3f <- np.multiply (np.power r 3) f ;;
  y <- np.multiply r3f hr ;;
  Ok (rho + 2 * PI * rho ^ 2 / 3 * (A / 20 + np.trapz y deltar)).

(** The two statements in program order: the spec's [integrate]. *)
Definition integrate (A rho : R) (r : list R) (deltar : R)
  (phi f hr : list R) : result (R * R) :=
  e <- energy_density A rho r deltar phi hr ;;
  p <- virial_pressure A rho r deltar f hr ;;
  Ok (e, p).

(** ** The script's surroundings *)

(** The parsed command line: [--A], [--rho], [--rmax], [--qmax],
    [--sunlight], [--show]. *)
Record Args : Type := mkArgs {
  arg_A : R;
  arg_rho : R;
  arg_rmax : R;
  arg_qmax : R;
  arg_sunlight : bool;
  arg_show : bool
}.

(** The module [oz.wizard] after [hnc_solve()]: what the script reads from
    it.  [w_version] is [str(w.version, 'utf-8').strip()]; [w_hr] and [w_sk]
    are the components [w.hr[:,0,0]] and [w.sk[:,0,0]]. *)
Record Wizard : Type := mkWizard {
  w_version : string;
  w_uex : R;
  w_press : R;
  w_deltar : R;
  w_r : list R;
  w_hr : list R;
  w_deltak : R;
  w_k : list R;
  w_sk : list R
}.

(** SunlightHNC driven as lines 96-102 do: import, [initialise()], set
    [arep[0,0] = A], [dpd_potential()], set [rho[0] = rho], [hnc_solve()].
    The engine sees the two numbers and nothing else; it may raise. *)
Definition Reference : Type := R -> R -> result Wizard.

(** A printed line, with the values its format string is filled with:
    line 88, line 91 (a constant), line 92 and line 105. *)
Inductive line : Type :=
| ModelLine (A rho : R)
| MonteCarloLine
| PyHNCLine (version : string) (e p : R)
| SunlightLine (version : string) (uex press : R).

(** A call into [matplotlib.pyplot]; [Plot x y fmt] is [plt.plot(x, y)]
    when [fmt] is [None] and [plt.plot(x, y, fmt)] otherwise. *)
Inductive plt_call : Type :=
| Figure (n : nat)
| Plot (x y : list R) (fmt : option string)
| XLabel (s : string)
| YLabel (s : string)
| Show.

(** What a run leaves behind: the lines on stdout and the calls made to
    the plotting library, both in order. *)
Record world : Type := mkWorld {
  stdout : list line;
  plt : list plt_call
}.

Definition world0 : world := mkWorld [] [].

(** Statements of the script: a result or an exception, and the world as
    it is at that point (what was printed before an exception stays
    printed). *)
Definition M (X : Type) : Type := world -> result X * world.

Definition ret {X : Type} (x : X) : M X := fun w => (Ok x, w).

Definition bind {X Y : Type} (c : M X) (k : X -> M Y) : M Y :=
  fun w => match c w with
           | (Ok x, w') => k x w'
           | (Err e, w') => (Err e, w')
           end.

Definition call {X : Type} (c : result X) : M X := fun w => (c, w).

Definition print (l : line) : M unit :=
  fun w => (Ok tt, mkWorld (stdout w ++ [l]) (plt w)).

Definition pyplot (c : plt_call) : M unit :=
  fun w => (Ok tt, mkWorld (stdout w) (plt w ++ [c])).

Declare Scope script_scope.
Delimit Scope script_scope with script.
Notation "x <- c ;; k" := (bind c (fun x => k))
  (at level 61, c at next level, right associativity) : script_scope.
Notation "c ;; k" := (bind c (fun _ => k))
  (at level 61, right associativity) : script_scope.

Local Open Scope script_scope.

(** Lines 94-105: the optional SunlightHNC run and its line.  The module
    object [w] exists afterwards only when [--sunlight] was given. *)
Definition sunlight_block (args : Args) (reference : Reference) (A rho : R)
  : M (option Wizard) :=
  if arg_sunlight args then
    w <- call (reference A rho) ;;
    print (SunlightLine (w_version w) (w_uex w) (w_press w)) ;;
    ret (Some w)
  else ret None.

(** [int(xmax / delta)] of lines 117 and 128.  With a zero step the
    division raises or gives an infinity or a NaN, which [int] refuses:
    either way the run ends there. *)
Definition window_index (xmax delta : R) : result Z :=
  if Req_dec_T delta 0 then Err NotFinite else Ok (py_int (xmax / delta)).

(** Lines 115-121: the curves of figure 1.  [w] is the reference engine's
    module when [--sunlight] was given. *)
Definition plot_gr (args : Args) (r gr : list R) (w : option Wizard)
  : M unit :=
  let cut := np.less r (arg_rmax args) in
  match w with
  | Some w =>
      imax <- call (window_index (arg_rmax args) (w_deltar w)) ;;
      pyplot (Plot (np.slice_to (w_r w) imax)
                   (np.sadd 1 (np.slice_to (w_hr w) imax))
                   (Some "."%string)) ;;
      rc <- call (np.take_mask r cut) ;;
      grc <- call (np.take_mask gr cut) ;;
      pyplot (Plot rc grc (Some "--"%string))
  | None =>
      rc <- call (np.take_mask r cut) ;;
      grc <- call (np.take_mask gr cut) ;;
      pyplot (Plot rc grc None)
  end.

(** Lines 126-132: the curves of figure 2. *)
Definition plot_sq (args : Args) (q sq : list R) (rho : R)
  (w : option Wizard) : M unit :=
  let cut := np.less q (arg_qmax args) in
  match w with
  | Some w =>
      jmax <- call (window_index (arg_qmax args) (w_deltak w)) ;;
      pyplot (Plot (np.slice_to (w_k w) jmax)
                   (np.divs (np.slice_to (w_sk w) jmax) rho)
                   (Some "."%string)) ;;
      qc <- call (np.take_mask q cut) ;;
      sqc <- call (np.take_mask sq cut) ;;
      pyplot (Plot qc sqc (Some "--"%string))
  | None =>
      qc <- call (np.take_mask q cut) ;;
      sqc <- call (np.take_mask sq cut) ;;
      pyplot (Plot qc sqc None)
  end.

(** Lines 107-136: the plots. *)
Definition show_block (args : Args) (r q hr hq : list R) (rho : R)
  (w : option Wizard) : M unit :=
  if arg_show args then
    let gr := np.sadd 1 hr in
    let sq := np.sadd 1 (np.smul rho hq) in
    pyplot (Figure 1) ;;
    plot_gr args r gr w ;;
    pyplot (XLabel "$r$"%string) ;;
    pyplot (YLabel "$g(r)$"%string) ;;
    pyplot (Figure 2) ;;
    plot_sq args q sq rho w ;;
    pyplot (XLabel "$k$"%string) ;;
    pyplot (YLabel "$S(k)$"%string) ;;
    pyplot Show
  else ret tt.

(** Lines 58-86: from the arguments to [hr], [hq], [e] and [p]. *)
Definition compute (args : Args) (grid : Grid) (solve : Solver)
  : result (Soln * R * R) :=
  (let A := arg_A args in
   let rho := arg_rho args in
   let r := grid_r grid in
   let phi := dpd_potential A r in
   let f := dpd_force A r in
   soln <- solve phi rho ;;
   e <- energy_density A rho r (grid_deltar grid) phi (soln_hr soln) ;;
   p <- virial_pressure A rho r (grid_deltar grid) f (soln_hr soln) ;;
   Ok (soln, e, p))%result.

(** Lines 88-92: the report. *)
Definition report (A rho : R) (version : string) (e p : R) : M unit :=
  print (ModelLine A rho) ;;
  (if Req_dec_T A 25 then
     if Req_dec_T rho 3 then print MonteCarloLine else ret tt
   else ret tt) ;;
  print (PyHNCLine version e p).

(** The whole script. *)
Definition main (args : Args) (grid : Grid) (solve : Solver)
  (reference : Reference) : M unit :=
  let A := arg_A args in
  let rho := arg_rho args in
  x <- call (compute args grid solve) ;;
  let '(soln, e, p) := x in
  report A rho (grid_version grid) e p ;;
  w <- sunlight_block args reference A rho ;;
  show_block args (grid_r grid) (grid_q grid) (soln_hr soln) (soln_hq soln) rho w.

(** A run from an empty world. *)
Definition run (args : Args) (grid : Grid) (solve : Solver)
  (reference : Reference) : result unit * world :=
  main args grid solve reference world0.

(** ** The specification's formulas *)

(** These follow the words of the specification, not the script, and are
    what the script's results are compared with. *)
Module Spec.

(** The integrand at every grid point: [r^k * w(r) * h(r)]. *)
Fixpoint integrand (k : nat) (r w h : list R) : list R :=
  match r, w, h with
  | ri :: r', wi :: w', hi :: h' => ri ^ k * wi * hi :: integrand k r' w' h'
  | _, _, _ => []
  end.

(** The composite trapezoid rule on equally spaced samples: every
    interval contributes its width times the mean of its two end values. *)
Fixpoint trapezoid (y : list R) (dx : R) : R :=
  match y with
  | a :: ((b :: _) as t) => dx * ((a + b) / 2) + trapezoid t dx
  | _ => 0
  end.

(** "e = 2 pi rho^2 (A/60 + trapezoid(r^2 phi h, dx))" *)
Definition energy (A rho : R) (r : list R) (dx : R) (phi h : list R) : R :=
  2 * PI * rho ^ 2 * (A / 60 + trapezoid (integrand 2 r phi h) dx).

(** "p = rho + (2 pi rho^2 / 3) (A/20 + trapezoid(r^3 f h, dx))" *)
Definition pressure (A rho : R) (r : list R) (dx : R) (f h : list R) : R :=
  rho + (2 * PI * rho ^ 2 / 3) * (A / 20 + trapezoid (integrand 3 r f h) dx).

(** "phi(r) = (A/2)(1-r)^2 for r < 1, else 0" *)
Definition phi (A r : R) : R := if Rlt_dec r 1 then A / 2 * (1 - r) ^ 2 else 0.

(** "f(r) = A(1-r) for r < 1, else 0" *)
Definition f (A r : R) : R := if Rlt_dec r 1 then A * (1 - r) else 0.

(** "g(r) = 1 + h(r)" and "S(q) = 1 + rho h(q)", as points (abscissa,
    ordinate) over the grid. *)
Definition g_points (r hr : list R) : list (R * R) :=
  combine r (map (fun h => 1 + h) hr).

Definition S_points (rho : R) (q hq : list R) : list (R * R) :=
  combine q (map (fun h => 1 + rho * h) hq).

(** The display window [[0, xmax)]: the points whose abscissa is strictly
    below [xmax], in grid order. *)
Definition window (xmax : R) (pts : list (R * R)) : list (R * R) :=
  filter (fun pt => np.ltb (fst pt) xmax) pts.

End Spec.

(** ** Observations on a run *)

(** The same command line with [--sunlight] given or not. *)
Definition with_sunlight (b : bool) (args : Args) : Args :=
  mkArgs (arg_A args) (arg_rho args) (arg_rmax args) (arg_qmax args)
         b (arg_show args).

(** The same command line with [--show] given or not. *)
Definition with_show (b : bool) (args : Args) : Args :=
  mkArgs (arg_A args) (arg_rho args) (arg_rmax args) (arg_qmax args)
         (arg_sunlight args) b.

(** [e] and [p] of a run, without the solver's arrays. *)
Definition thermo (args : Args) (grid : Grid) (solve : Solver)
  : result (R * R) :=
  (x <- compute args grid solve ;; Ok (snd (fst x), snd x))%result.

(** The curves the script draws from its own arrays: every [plt.plot]
    call but those with the marker format ['.'], which draw the reference
    engine's arrays. *)
Definition is_marker (fmt : option string) : bool :=
  match fmt with
  | Some s => String.eqb s "."
  | None => false
  end.

Fixpoint own_curves (calls : list plt_call) : list (list R * list R) :=
  match calls with
  | [] => []
  | Plot x y fmt :: rest =>
      if is_marker fmt then own_curves rest else (x, y) :: own_curves rest
  | _ :: rest => own_curves rest
  end.

(** The plotting calls made before [plt.figure(2)]. *)
Fixpoint before_figure2 (calls : list plt_call) : list plt_call :=
  match calls with
  | [] => []
  | Figure 2 :: _ => []
  | c :: rest => c :: before_figure2 rest
  end.

(** The lines of the report (lines 88-92) for given values. *)
Definition report_lines (A rho : R) (version : string) (e p : R)
  : list line :=
  ModelLine A rho
  :: (if Req_dec_T A 25 then
        if Req_dec_T rho 3 then [MonteCarloLine] else []
      else [])
  ++ [PyHNCLine version e p].

(** A statement that prints nothing. *)
Definition silent {X : Type} (c : M X) : Prop :=
  forall w, stdout (snd (c w)) = stdout w.

(** The potential and the force that lines 67-68 build at a radius [x]:
    the entry of the arrays for the one-point grid [[x]]. *)
Definition potential_at (A x : R) : R := nth 0 (dpd_potential A [x]) 0.

Definition force_at (A x : R) : R := nth 0 (dpd_force A [x]) 0.

(** ** A small run *)

(** A four-point grid, a solver that returns fixed arrays on it and a
    reference engine on a grid of its own, to run the script on. *)
Definition sample_grid : Grid :=
  mkGrid [0; 1/2; 1; 3/2] (1/2) [1; 2; 3; 4] "1.0".

Definition sample_soln : Soln :=
  mkSoln [-1; -1/2; 0; 0] [-1/4; 0; 0; 0].

Definition sample_solver : Solver := fun _ _ => Ok sample_soln.

Definition sample_wizard : Wizard :=
  mkWizard "1.13" 14 24 1 [1; 2] [-1; 0] 1 [1; 2] [1; 1].

Definition sample_reference : Reference := fun _ _ => Ok sample_wizard.

Definition sample_args (A rho : R) (sunlight show : bool) : Args :=
  mkArgs A rho 3 25 sunlight show.

(** * Properties *)

(** ** Arrays *)

Lemma zip_with_length (op : R -> R -> R) (x y : list R) :
  length x = length y -> length (np.zip_with op x y) = length x.
Proof.
  revert y; induction x as [|a x IH]; intros [|b y] H; simpl in *;
    try discriminate; auto.
Qed.

Lemma power_length (v : list R) (n : nat) : length (np.power v n) = length v.
Proof. apply length_map. Qed.

Lemma broadcast_aligned (op : R -> R -> R) (x y : list R) :
  length x = length y -> np.broadcast op x y = Ok (np.zip_with op x y).
Proof.
  intros H; unfold np.broadcast.
  now rewrite (proj2 (Nat.eqb_eq _ _) H).
Qed.

(** Shapes that are neither equal nor 1 do not broadcast. *)
Lemma broadcast_mismatch (op : R -> R -> R) (x y : list R) :
  length x <> length y -> length x <> 1%nat -> length y <> 1%nat ->
  np.broadcast op x y = Err ShapeMismatch.
Proof.
  intros Hne Hx Hy; unfold np.broadcast.
  rewrite (proj2 (Nat.eqb_neq _ _) Hne).
  destruct x as [|a [|a' x]]; destruct y as [|b [|b' y]]; simpl in *;
    try reflexivity; congruence.
Qed.

Lemma fold_plus_acc (v : list R) (acc : R) :
  fold_left Rplus v acc = acc + fold_left Rplus v 0.
Proof.
  revert acc; induction v as [|a v IH]; intros acc; simpl.
  - lra.
  - rewrite (IH (acc + a)), (IH (0 + a)); lra.
Qed.

Lemma sum_cons (a : R) (v : list R) : np.sum (a :: v) = a + np.sum v.
Proof.
  unfold np.sum; simpl. rewrite fold_plus_acc. lra.
Qed.

Lemma trapz_step (a b : R) (t : list R) (dx : R) :
  np.trapz (a :: b :: t) dx = dx * (b + a) / 2 + np.trapz (b :: t) dx.
Proof.
  unfold np.trapz, np.from1, np.upto_last, np.divs, np.smul.
  change (removelast (a :: b :: t)) with (a :: removelast (b :: t)).
  change (tl (a :: b :: t)) with (b :: t).
  change (tl (b :: t)) with t.
  cbn [np.zip_with map]. now rewrite sum_cons.
Qed.

(** numpy's vectorised expression is the composite trapezoid rule. *)
Lemma trapz_trapezoid (y : list R) (dx : R) :
  np.trapz y dx = Spec.trapezoid y dx.
Proof.
  induction y as [|a [|b t] IH].
  - unfold np.trapz, np.sum; simpl; reflexivity.
  - unfold np.trapz, np.sum; simpl; reflexivity.
  - rewrite trapz_step, IH.
    change (Spec.trapezoid (a :: b :: t) dx)
      with (dx * ((a + b) / 2) + Spec.trapezoid (b :: t) dx).
    lra.
Qed.

(** With aligned arrays the two broadcast products are the pointwise
    integrand. *)
Lemma zip_integrand (k : nat) (r w h : list R) :
  np.zip_with Rmult (np.zip_with Rmult (np.power r k) w) h
  = Spec.integrand k r w h.
Proof.
  revert w h; induction r as [|ri r IH]; intros [|wi w] [|hi h];
    simpl; try reflexivity.
  now rewrite IH.
Qed.

Lemma products_aligned (k : nat) (r w h : list R) :
  length w = length r -> length h = length r ->
  (rw <- np.multiply (np.power r k) w ;; np.multiply rw h)%result
  = Ok (Spec.integrand k r w h).
Proof.
  intros Hw Hh. unfold np.multiply.
  rewrite broadcast_aligned by (now rewrite power_length).
  cbn [rbind].
  rewrite broadcast_aligned
    by (rewrite zip_with_length; rewrite power_length; congruence).
  now rewrite zip_integrand.
Qed.


(** ** The integrator *)

Lemma energy_density_aligned (A rho : R) (r : list R) (dr : R)
  (phi h : list R) :
  length phi = length r -> length h = length r ->
  energy_density A rho r dr phi h = Ok (Spec.energy A rho r dr phi h).
Proof.
  intros Hphi Hh.
  pose proof (products_aligned 2 r phi h Hphi Hh) as He.
  unfold energy_density.
  destruct (np.multiply (np.power r 2) phi) as [r2phi|]; [|discriminate].
  cbn [rbind] in *. rewrite He. cbn [rbind].
  now rewrite trapz_trapezoid.
Qed.

Lemma virial_pressure_aligned (A rho : R) (r : list R) (dr : R)
  (f h : list R) :
  length f = length r -> length h = length r ->
  virial_pressure A rho r dr f h = Ok (Spec.pressure A rho r dr f h).
Proof.
  intros Hf Hh.
  pose proof (products_aligned 3 r f h Hf Hh) as Hp.
  unfold virial_pressure.
  destruct (np.multiply (np.power r 3) f) as [r3f|]; [|discriminate].
  cbn [rbind] in *. rewrite Hp. cbn [rbind].
  now rewrite trapz_trapezoid.
Qed.

(** C1.  For every grid (radii [r], spacing [dr]), amplitude, density,
    potential, force and correlation array aligned with the grid, the
    integrator returns
    e = 2 pi rho^2 (A/60 + trapezoid(r^2 phi h, dx = dr)) and
    p = rho + (2 pi rho^2 / 3) (A/20 + trapezoid(r^3 f h, dx = dr)):
    the constants A/60 and A/20 enter as additive offsets. *)
Theorem integrate_formulas (A rho : R) (r : list R) (dr : R)
  (phi f h : list R) :
  length phi = length r -> length f = length r -> length h = length r ->
  integrate A rho r dr phi f h
  = Ok (Spec.energy A rho r dr phi h, Spec.pressure A rho r dr f h).
Proof.
  intros Hphi Hf Hh. unfold integrate.
  rewrite energy_density_aligned, virial_pressure_aligned by assumption.
  reflexivity.
Qed.

(** The formulas at A = 25, rho = 3 on the three-point grid 0, 1/2, 1. *)
Lemma integrate_formulas_witness :
  integrate 25 3 [0; 1/2; 1] (1/2) [1; 2; 3] [4; 5; 6] [7; 8; 9]
  = Ok (Spec.energy 25 3 [0; 1/2; 1] (1/2) [1; 2; 3] [7; 8; 9],
        Spec.pressure 25 3 [0; 1/2; 1] (1/2) [4; 5; 6] [7; 8; 9]).
Proof.
  apply (integrate_formulas 25 3 [0; 1/2; 1] (1/2) [1; 2; 3] [4; 5; 6]
           [7; 8; 9]); reflexivity.
Defined.

Lemma integrand_zero (k : nat) (r w h : list R) :
  Forall (fun x => x = 0) h ->
  Forall (fun y => y = 0) (Spec.integrand k r w h).
Proof.
  intros Hz; revert r w; induction Hz as [|hi h Hhi Hz IH]; intros r w.
  - destruct r, w; constructor.
  - destruct r as [|ri r], w as [|wi w]; simpl; try constructor.
    + subst hi; ring.
    + apply IH.
Qed.

Lemma trapezoid_zero (y : list R) (dx : R) :
  Forall (fun x => x = 0) y -> Spec.trapezoid y dx = 0.
Proof.
  induction 1 as [|a y Ha Hy IH]; [reflexivity|].
  destruct Hy as [|b t Hb Ht]; [reflexivity|].
  change (dx * ((a + b) / 2) + Spec.trapezoid (b :: t) dx = 0).
  rewrite IH, Ha, Hb. field.
Qed.

(** C4.  Mean-field limit: when the correlation function is 0 at every
    grid point, the integrator returns the closed-form terms alone,
    e = 2 pi rho^2 A/60 and p = rho + 2 pi rho^2 A/20/3, for every A, rho
    and grid. *)
Theorem integrate_mean_field (A rho : R) (r : list R) (dr : R)
  (phi f h : list R) :
  length phi = length r -> length f = length r -> length h = length r ->
  Forall (fun x => x = 0) h ->
  integrate A rho r dr phi f h
  = Ok (2 * PI * rho ^ 2 * A / 60, rho + 2 * PI * rho ^ 2 * A / 20 / 3).
Proof.
  intros Hphi Hf Hh Hz. unfold integrate.
  rewrite energy_density_aligned, virial_pressure_aligned by assumption.
  cbn [rbind]. unfold Spec.energy, Spec.pressure.
  rewrite !trapezoid_zero by now apply integrand_zero.
  do 2 f_equal; field.
Qed.

(** The mean-field limit for the DPD potential itself at A = 25, rho = 3. *)
Lemma integrate_mean_field_witness :
  integrate 25 3 [0; 1/2; 1] (1/2)
    (dpd_potential 25 [0; 1/2; 1]) (dpd_force 25 [0; 1/2; 1]) [0; 0; 0]
  = Ok (2 * PI * 3 ^ 2 * 25 / 60, 3 + 2 * PI * 3 ^ 2 * 25 / 20 / 3).
Proof.
  apply (integrate_mean_field 25 3 [0; 1/2; 1] (1/2)
           (dpd_potential 25 [0; 1/2; 1]) (dpd_force 25 [0; 1/2; 1])
           [0; 0; 0]); try reflexivity.
  repeat constructor.
Defined.

(** ** Misaligned arrays *)

(** As C3 is worded, every correlation array whose length differs from the
    potential's is rejected.  A correlation array of length 1 is not:
    numpy broadcasts it against the two-point grid, and the integrator
    returns numbers as if it had been stretched to [[-1; -1]]. *)
Lemma integrate_length_one_accepted :
  length (dpd_potential 25 [0; 1/2]) = 2%nat /\
  length [-1] = 1%nat /\
  integrate 25 3 [0; 1/2] (1/2)
    (dpd_potential 25 [0; 1/2]) (dpd_force 25 [0; 1/2]) [-1]
  = Ok (2 * PI * 3 ^ 2 * (25 / 60 - 25 / 128),
        3 + 2 * PI * 3 ^ 2 / 3 * (25 / 20 - 25 / 64)) /\
  integrate 25 3 [0; 1/2] (1/2)
    (dpd_potential 25 [0; 1/2]) (dpd_force 25 [0; 1/2]) [-1]
  <> Err ShapeMismatch.
Proof.
  assert (H : integrate 25 3 [0; 1/2] (1/2)
                (dpd_potential 25 [0; 1/2]) (dpd_force 25 [0; 1/2]) [-1]
              = Ok (2 * PI * 3 ^ 2 * (25 / 60 - 25 / 128),
                    3 + 2 * PI * 3 ^ 2 / 3 * (25 / 20 - 25 / 64))).
  { unfold integrate, energy_density, virial_pressure, dpd_potential,
      dpd_force, truncate_to_zero, np.multiply, np.broadcast, np.trapz,
      np.sum, np.divs, np.smul, np.power, np.rsub, np.from1, np.upto_last.
    simpl.
    destruct (Rlt_dec 0 1) as [_|n]; [|exfalso; apply n; lra].
    destruct (Rlt_dec (1 / 2) 1) as [_|n]; [|exfalso; apply n; lra].
    do 2 f_equal; field. }
  repeat split; try reflexivity; [exact H | rewrite H; discriminate].
Qed.

(** C3, amended.  When the potential and the force are aligned with the
    grid, the correlation array has another length, and neither length
    is 1, the integrator fails with [ShapeMismatch]: nothing is truncated
    or padded.  (A length of 1 is the case numpy broadcasts.) *)
Theorem integrate_shape_mismatch (A rho : R) (r : list R) (dr : R)
  (phi f h : list R) :
  length phi = length r -> length f = length r ->
  length h <> length phi ->
  length phi <> 1%nat -> length h <> 1%nat ->
  integrate A rho r dr phi f h = Err ShapeMismatch.
Proof.
  intros Hphi Hf Hne Hn Hm.
  unfold integrate, energy_density, np.multiply.
  rewrite broadcast_aligned by (now rewrite power_length).
  cbn [rbind].
  rewrite broadcast_mismatch; [reflexivity | | | assumption];
    rewrite zip_with_length; rewrite power_length; congruence.
Qed.

(** A three-point potential against a two-point correlation array. *)
Lemma integrate_shape_mismatch_witness :
  integrate 25 3 [0; 1/2; 1] (1/2) [1; 2; 3] [4; 5; 6] [7; 8]
  = Err ShapeMismatch.
Proof.
  apply (integrate_shape_mismatch 25 3 [0; 1/2; 1] (1/2) [1; 2; 3]
           [4; 5; 6] [7; 8]); simpl; congruence.
Defined.

(** ** The potential and the force *)

Lemma truncate_map (v : R -> R) (r : list R) (rc : R) :
  truncate_to_zero (map v r) r rc
  = map (fun ri => if Rlt_dec ri rc then v ri else 0) r.
Proof.
  unfold truncate_to_zero.
  induction r as [|ri r IH]; simpl; [reflexivity|].
  now rewrite IH.
Qed.

(** The built arrays are the specification's functions at every grid
    point. *)
Lemma dpd_potential_map (A : R) (r : list R) :
  dpd_potential A r = map (Spec.phi A) r.
Proof.
  unfold dpd_potential, np.smul, np.power, np.rsub.
  rewrite !map_map. apply (truncate_map (fun x => A / 2 * (1 - x) ^ 2)).
Qed.

Lemma dpd_force_map (A : R) (r : list R) :
  dpd_force A r = map (Spec.f A) r.
Proof.
  unfold dpd_force, np.smul, np.rsub.
  rewrite !map_map. apply (truncate_map (fun x => A * (1 - x))).
Qed.

Lemma dpd_potential_length (A : R) (r : list R) :
  length (dpd_potential A r) = length r.
Proof. rewrite dpd_potential_map. apply length_map. Qed.

Lemma dpd_force_length (A : R) (r : list R) :
  length (dpd_force A r) = length r.
Proof. rewrite dpd_force_map. apply length_map. Qed.

(** C2.  For every amplitude A and every grid point r (the i-th entry of
    the grid), the built potential there is (A/2)(1-r)^2 when r < 1 and
    exactly 0 when r >= 1, and the built force there is A(1-r) when r < 1
    and exactly 0 when r >= 1. *)
Theorem potential_and_force_values (A : R) (r : list R) (i : nat) (ri : R) :
  nth_error r i = Some ri ->
  (ri < 1 ->
   nth_error (dpd_potential A r) i = Some (A / 2 * (1 - ri) ^ 2) /\
   nth_error (dpd_force A r) i = Some (A * (1 - ri))) /\
  (1 <= ri ->
   nth_error (dpd_potential A r) i = Some 0 /\
   nth_error (dpd_force A r) i = Some 0).
Proof.
  intros Hi.
  rewrite dpd_potential_map, dpd_force_map, !nth_error_map, Hi.
  unfold Spec.phi, Spec.f; simpl.
  destruct (Rlt_dec ri 1) as [Hlt|Hge]; split; intros H; try lra; auto.
Qed.

(** On the grid 0, 1/2, 1, 2 with A = 25: the point r = 1 (index 2) is on
    the zero side of the cut-off, the point r = 1/2 below it. *)
Lemma potential_and_force_values_witness :
  (nth_error (dpd_potential 25 [0; 1/2; 1; 2]) 2 = Some 0 /\
   nth_error (dpd_force 25 [0; 1/2; 1; 2]) 2 = Some 0) /\
  (nth_error (dpd_potential 25 [0; 1/2; 1; 2]) 1
   = Some (25 / 2 * (1 - 1/2) ^ 2) /\
   nth_error (dpd_force 25 [0; 1/2; 1; 2]) 1 = Some (25 * (1 - 1/2))).
Proof.
  split.
  - apply (potential_and_force_values 25 [0; 1/2; 1; 2] 2 1);
      [reflexivity | lra].
  - apply (potential_and_force_values 25 [0; 1/2; 1; 2] 1 (1/2));
      [reflexivity | lra].
Defined.

(** C10.  For every amplitude A >= 0 and grid points r >= 0, the built
    potential and force are nonnegative at every grid point. *)
Theorem potential_and_force_nonnegative (A : R) (r : list R) :
  0 <= A -> Forall (fun ri => 0 <= ri) r ->
  Forall (fun v => 0 <= v) (dpd_potential A r) /\
  Forall (fun v => 0 <= v) (dpd_force A r).
Proof.
  intros HA _.
  rewrite dpd_potential_map, dpd_force_map.
  split; apply Forall_map, Forall_forall; intros ri _;
    unfold Spec.phi, Spec.f; destruct (Rlt_dec ri 1) as [Hlt|Hge];
    try lra.
  - apply Rmult_le_pos; [lra | apply pow2_ge_0].
  - apply Rmult_le_pos; lra.
Qed.

Lemma potential_and_force_nonnegative_witness :
  Forall (fun v => 0 <= v) (dpd_potential 25 [0; 1/2; 1; 2]) /\
  Forall (fun v => 0 <= v) (dpd_force 25 [0; 1/2; 1; 2]).
Proof.
  apply (potential_and_force_nonnegative 25 [0; 1/2; 1; 2]);
    [lra | repeat constructor; lra].
Defined.

(** ** No repulsion *)

Lemma integrand_zero_weight (k : nat) (r w h : list R) :
  Forall (fun x => x = 0) w ->
  Forall (fun y => y = 0) (Spec.integrand k r w h).
Proof.
  intros Hz; revert r h; induction Hz as [|wi w Hwi Hz IH]; intros r h.
  - destruct r; constructor.
  - destruct r as [|ri r], h as [|hi h]; simpl; try constructor.
    + subst wi; ring.
    + apply IH.
Qed.

Lemma map_zero_all (r : list R) :
  Forall (fun x => x = 0) (map (fun _ : R => 0) r).
Proof. apply Forall_map, Forall_forall; reflexivity. Qed.

Lemma dpd_potential_0 (r : list R) :
  dpd_potential 0 r = map (fun _ => 0) r.
Proof.
  rewrite dpd_potential_map. apply map_ext; intros ri.
  unfold Spec.phi. destruct (Rlt_dec ri 1); [field | reflexivity].
Qed.

Lemma dpd_force_0 (r : list R) :
  dpd_force 0 r = map (fun _ => 0) r.
Proof.
  rewrite dpd_force_map. apply map_ext; intros ri.
  unfold Spec.f. destruct (Rlt_dec ri 1); [ring | reflexivity].
Qed.

(** C5.  For A = 0 the built potential and force are zero at every grid
    point, and for every correlation array the solver returns (aligned
    with the grid) and every density rho, the computed energy density
    is 0 and the computed virial pressure is rho. *)
Theorem ideal_gas (args : Args) (grid : Grid) (solve : Solver)
  (soln : Soln) :
  arg_A args = 0 ->
  solve (dpd_potential 0 (grid_r grid)) (arg_rho args) = Ok soln ->
  length (soln_hr soln) = length (grid_r grid) ->
  dpd_potential (arg_A args) (grid_r grid) = map (fun _ => 0) (grid_r grid) /\
  dpd_force (arg_A args) (grid_r grid) = map (fun _ => 0) (grid_r grid) /\
  compute args grid solve = Ok (soln, 0, arg_rho args).
Proof.
  intros HA Hsolve Hlen. rewrite HA.
  split; [apply dpd_potential_0 | split; [apply dpd_force_0 |]].
  unfold compute. rewrite HA, Hsolve. cbn [rbind].
  rewrite energy_density_aligned, virial_pressure_aligned;
    try assumption;
    try apply dpd_potential_length; try apply dpd_force_length.
  cbn [rbind]. unfold Spec.energy, Spec.pressure.
  rewrite dpd_potential_0, dpd_force_0.
  rewrite !trapezoid_zero
    by (apply integrand_zero_weight, map_zero_all).
  do 2 f_equal; [f_equal |]; field.
Qed.

(** A solver that returns aligned arrays on the sample grid, A = 0 and
    rho = 3. *)
Lemma ideal_gas_witness :
  dpd_potential 0 (grid_r sample_grid) = map (fun _ => 0) (grid_r sample_grid)
  /\ dpd_force 0 (grid_r sample_grid) = map (fun _ => 0) (grid_r sample_grid)
  /\ compute (sample_args 0 3 false false) sample_grid sample_solver
     = Ok (sample_soln, 0, 3).
Proof.
  apply (ideal_gas (sample_args 0 3 false false) sample_grid sample_solver
           sample_soln); reflexivity.
Defined.

(** ** The run, block by block *)

Lemma silent_ret {X : Type} (x : X) : silent (ret x).
Proof. intros w; reflexivity. Qed.

Lemma silent_call {X : Type} (c : result X) : silent (call c).
Proof. intros w; reflexivity. Qed.

Lemma silent_pyplot (c : plt_call) : silent (pyplot c).
Proof. intros w; reflexivity. Qed.

Lemma silent_bind {X Y : Type} (c : M X) (k : X -> M Y) :
  silent c -> (forall x, silent (k x)) -> silent (bind c k).
Proof.
  intros Hc Hk w; unfold bind.
  specialize (Hc w). destruct (c w) as [[x|e] w']; simpl in *.
  - now rewrite Hk.
  - assumption.
Qed.

Create HintDb silent.
#[local] Hint Resolve silent_ret silent_call silent_pyplot : silent.

Ltac silent_steps :=
  repeat first [ apply silent_bind; [| intros ? ] | solve [ auto with silent ] ].

Lemma silent_plot_gr (args : Args) (r gr : list R) (w : option Wizard) :
  silent (plot_gr args r gr w).
Proof. unfold plot_gr; destruct w; silent_steps. Qed.

Lemma silent_plot_sq (args : Args) (q sq : list R) (rho : R)
  (w : option Wizard) :
  silent (plot_sq args q sq rho w).
Proof. unfold plot_sq; destruct w; silent_steps. Qed.

#[local] Hint Resolve silent_plot_gr silent_plot_sq : silent.

(** The plotting block prints nothing. *)
Lemma silent_show_block (args : Args) (r q hr hq : list R) (rho : R)
  (w : option Wizard) :
  silent (show_block args r q hr hq rho w).
Proof. unfold show_block; destruct (arg_show args); silent_steps. Qed.

Lemma report_run (A rho : R) (version : string) (e p : R) (w : world) :
  report A rho version e p w
  = (Ok tt, mkWorld (stdout w ++ report_lines A rho version e p) (plt w)).
Proof.
  unfold report, report_lines, bind, print, ret.
  destruct (Req_dec_T A 25); [destruct (Req_dec_T rho 3)|]; simpl;
    rewrite <- ?app_assoc; reflexivity.
Qed.

(** The lines the reference block adds. *)
Lemma sunlight_block_stdout (args : Args) (reference : Reference)
  (A rho : R) (w : world) :
  stdout (snd (sunlight_block args reference A rho w))
  = stdout w
    ++ (if arg_sunlight args then
          match reference A rho with
          | Ok wz => [SunlightLine (w_version wz) (w_uex wz) (w_press wz)]
          | Err _ => []
          end
        else []).
Proof.
  unfold sunlight_block, bind, call, print, ret.
  destruct (arg_sunlight args); [destruct (reference A rho)|]; simpl;
    now rewrite ?app_nil_r.
Qed.

(** What a run prints: nothing when [e] or [p] cannot be computed, and
    otherwise the report followed by the reference engine's line when it
    was asked for and the engine ran. *)
Lemma run_stdout (args : Args) (grid : Grid) (solve : Solver)
  (reference : Reference) :
  stdout (snd (run args grid solve reference))
  = match compute args grid solve with
    | Ok (_, e, p) =>
        report_lines (arg_A args) (arg_rho args) (grid_version grid) e p
        ++ (if arg_sunlight args then
              match reference (arg_A args) (arg_rho args) with
              | Ok wz => [SunlightLine (w_version wz) (w_uex wz) (w_press wz)]
              | Err _ => []
              end
            else [])
    | Err _ => []
    end.
Proof.
  unfold run, main, bind at 1, call.
  destruct (compute args grid solve) as [[[soln e] p]|err]; [|reflexivity].
  unfold bind at 1. rewrite report_run. simpl stdout.
  unfold bind.
  pose proof (sunlight_block_stdout args reference (arg_A args) (arg_rho args)
                (mkWorld (report_lines (arg_A args) (arg_rho args)
                            (grid_version grid) e p) [])) as Hs.
  destruct (sunlight_block args reference (arg_A args) (arg_rho args) _)
    as [[w|err] w2]; simpl in Hs.
  - rewrite silent_show_block. exact Hs.
  - exact Hs.
Qed.

(** With a solver that returns arrays aligned with the grid, lines 58-86
    compute the specification's two formulas for the built potential. *)
Lemma compute_aligned (args : Args) (grid : Grid) (solve : Solver)
  (soln : Soln) :
  solve (dpd_potential (arg_A args) (grid_r grid)) (arg_rho args) = Ok soln ->
  length (soln_hr soln) = length (grid_r grid) ->
  compute args grid solve
  = Ok (soln,
        Spec.energy (arg_A args) (arg_rho args) (grid_r grid)
          (grid_deltar grid) (dpd_potential (arg_A args) (grid_r grid))
          (soln_hr soln),
        Spec.pressure (arg_A args) (arg_rho args) (grid_r grid)
          (grid_deltar grid) (dpd_force (arg_A args) (grid_r grid))
          (soln_hr soln)).
Proof.
  intros Hsolve Hlen. unfold compute. rewrite Hsolve. cbn [rbind].
  rewrite energy_density_aligned, virial_pressure_aligned;
    try assumption;
    try apply dpd_potential_length; try apply dpd_force_length.
  reflexivity.
Qed.

(** ** The report *)

(** C7.  Whenever e and p are computed, stdout holds the Monte-Carlo
    reference line if and only if A = 25 and rho = 3, and it holds the
    model line and the line of the computed values for every (A, rho). *)
Theorem report_contents (args : Args) (grid : Grid) (solve : Solver)
  (reference : Reference) (soln : Soln) (e p : R) :
  compute args grid solve = Ok (soln, e, p) ->
  (In MonteCarloLine (stdout (snd (run args grid solve reference)))
   <-> arg_A args = 25 /\ arg_rho args = 3) /\
  In (ModelLine (arg_A args) (arg_rho args))
     (stdout (snd (run args grid solve reference))) /\
  In (PyHNCLine (grid_version grid) e p)
     (stdout (snd (run args grid solve reference))).
Proof.
  intros Hc. rewrite run_stdout, Hc. unfold report_lines.
  set (ref_lines := if arg_sunlight args then _ else _).
  assert (Href : ~ In MonteCarloLine ref_lines).
  { subst ref_lines. destruct (arg_sunlight args); [|intros []].
    destruct (reference _ _); simpl; intuition discriminate. }
  split; [split|split].
  - intros Hin. simpl in Hin. destruct Hin as [Hin|Hin]; [discriminate|].
    rewrite <- app_assoc in Hin. apply in_app_or in Hin.
    destruct (Req_dec_T (arg_A args) 25) as [HA|HA];
      [destruct (Req_dec_T (arg_rho args) 3) as [Hr|Hr]|].
    + split; assumption.
    + exfalso. simpl in Hin. intuition discriminate.
    + exfalso. simpl in Hin. intuition discriminate.
  - intros [HA Hr].
    destruct (Req_dec_T (arg_A args) 25); [|contradiction].
    destruct (Req_dec_T (arg_rho args) 3); [|contradiction].
    simpl. right. left. reflexivity.
  - simpl. left. reflexivity.
  - simpl. right. apply in_or_app. left. apply in_or_app. right.
    simpl. left. reflexivity.
Qed.

(** The canonical case on the sample grid, with the comparison on: the
    Monte-Carlo line is there. *)
Lemma report_contents_witness :
  (In MonteCarloLine
      (stdout (snd (run (sample_args 25 3 true false) sample_grid
                      sample_solver sample_reference)))
   <-> 25 = 25 /\ 3 = 3) /\
  In (ModelLine 25 3)
     (stdout (snd (run (sample_args 25 3 true false) sample_grid
                     sample_solver sample_reference))) /\
  In (PyHNCLine "1.0"
        (Spec.energy 25 3 (grid_r sample_grid) (1/2)
           (dpd_potential 25 (grid_r sample_grid)) (soln_hr sample_soln))
        (Spec.pressure 25 3 (grid_r sample_grid) (1/2)
           (dpd_force 25 (grid_r sample_grid)) (soln_hr sample_soln)))
     (stdout (snd (run (sample_args 25 3 true false) sample_grid
                     sample_solver sample_reference))).
Proof.
  apply (report_contents (sample_args 25 3 true false) sample_grid
           sample_solver sample_reference sample_soln).
  apply (compute_aligned (sample_args 25 3 true false) sample_grid
           sample_solver sample_soln); reflexivity.
Defined.

(** ** Independence from the reference engine and from hq *)

(** C6.  The comparison never feeds back: for a fixed solver, the two
    runs that differ only in [--sunlight] compute the same e and p, and
    the run with the comparison prints what the run without it prints
    (the line reporting e and p included), followed by the reference
    engine's own line if the engine ran, whatever the engine returned. *)
Theorem sunlight_does_not_feed_back (args : Args) (grid : Grid)
  (solve : Solver) (reference reference' : Reference) :
  compute (with_sunlight true args) grid solve
  = compute (with_sunlight false args) grid solve /\
  stdout (snd (run (with_sunlight true args) grid solve reference))
  = stdout (snd (run (with_sunlight false args) grid solve reference'))
    ++ match compute args grid solve, reference (arg_A args) (arg_rho args) with
       | Ok _, Ok wz => [SunlightLine (w_version wz) (w_uex wz) (w_press wz)]
       | _, _ => []
       end.
Proof.
  split; [reflexivity|].
  rewrite !run_stdout.
  change (compute (with_sunlight true args) grid solve)
    with (compute args grid solve).
  change (compute (with_sunlight false args) grid solve)
    with (compute args grid solve).
  destruct (compute args grid solve) as [[[soln e] p]|err]; [|reflexivity].
  simpl. rewrite app_nil_r.
  destruct (reference (arg_A args) (arg_rho args)); reflexivity.
Qed.

Lemma thermo_same_hr (args : Args) (grid : Grid) (solve solve' : Solver)
  (s s' : Soln) :
  solve (dpd_potential (arg_A args) (grid_r grid)) (arg_rho args) = Ok s ->
  solve' (dpd_potential (arg_A args) (grid_r grid)) (arg_rho args) = Ok s' ->
  soln_hr s = soln_hr s' ->
  thermo args grid solve = thermo args grid solve'.
Proof.
  intros Hs Hs' Hhr. unfold thermo, compute.
  rewrite Hs, Hs'. cbn [rbind]. rewrite Hhr.
  destruct (energy_density _ _ _ _ _ _); [|reflexivity]. cbn [rbind].
  destruct (virial_pressure _ _ _ _ _ _); reflexivity.
Qed.

(** ** The plots *)

Lemma less_length (x : list R) (c : R) : length (np.less x c) = length x.
Proof. apply length_map. Qed.

Lemma take_mask_less (x y : list R) (c : R) :
  np.take_mask y (np.less x c)
  = if Nat.eqb (length y) (length x) then Ok (np.select y (np.less x c))
    else Err IndexMismatch.
Proof. unfold np.take_mask. now rewrite less_length. Qed.

(** Masking abscissae and ordinates with [x < c] is the display window on
    the points. *)
Lemma select_window (x y : list R) (c : R) :
  length y = length x ->
  np.select x (np.less x c) = map fst (Spec.window c (combine x y)) /\
  np.select y (np.less x c) = map snd (Spec.window c (combine x y)).
Proof.
  revert y; induction x as [|a x IH]; intros [|b y] Hlen;
    try discriminate; [split; reflexivity|].
  injection Hlen as Hlen. destruct (IH y Hlen) as [IHx IHy].
  simpl. destruct (np.ltb a c); simpl; rewrite IHx, IHy; split; reflexivity.
Qed.

(** The window keeps exactly the grid points strictly below the limit. *)
Lemma window_spec (c : R) (pts : list (R * R)) (x y : R) :
  In (x, y) (Spec.window c pts) <-> In (x, y) pts /\ x < c.
Proof.
  unfold Spec.window. rewrite filter_In. unfold np.ltb; simpl.
  destruct (Rlt_dec x c); intuition discriminate.
Qed.

Lemma own_curves_app (a b : list plt_call) :
  own_curves (a ++ b) = own_curves a ++ own_curves b.
Proof.
  induction a as [|c a IH]; [reflexivity|].
  destruct c as [n|x y fmt|s|s|]; simpl; try exact IH.
  destruct (is_marker fmt); simpl; now rewrite IH.
Qed.

(** Figure 1, when it is drawn without an exception: the arrays were
    aligned, and the calls are the reference curve (with [--sunlight]
    only) and then the windowed g(r). *)
Lemma plot_gr_ok (args : Args) (r gr : list R) (w : option Wizard)
  (w0 : world) :
  fst (plot_gr args r gr w w0) = Ok tt ->
  length gr = length r /\
  exists refs fmt,
    plt (snd (plot_gr args r gr w w0))
    = plt w0 ++ refs
      ++ [Plot (np.select r (np.less r (arg_rmax args)))
               (np.select gr (np.less r (arg_rmax args))) fmt] /\
    own_curves refs = [] /\ is_marker fmt = false /\
    (w = None -> refs = [] /\ fmt = None).
Proof.
  unfold plot_gr, bind, call, pyplot.
  rewrite !take_mask_less, Nat.eqb_refl.
  destruct w as [wz|].
  - destruct (window_index (arg_rmax args) (w_deltar wz)) as [imax|];
      [|discriminate]. simpl.
    destruct (Nat.eqb (length gr) (length r)) eqn:Hlen; [|discriminate].
    intros _. split; [now apply Nat.eqb_eq|].
    eexists [_], _. simpl. rewrite <- app_assoc.
    repeat split; discriminate.
  - simpl.
    destruct (Nat.eqb (length gr) (length r)) eqn:Hlen; [|discriminate].
    intros _. split; [now apply Nat.eqb_eq|].
    exists [], None. simpl. repeat split; reflexivity.
Qed.

(** Figure 2, likewise. *)
Lemma plot_sq_ok (args : Args) (q sq : list R) (rho : R)
  (w : option Wizard) (w0 : world) :
  fst (plot_sq args q sq rho w w0) = Ok tt ->
  length sq = length q /\
  exists refs fmt,
    plt (snd (plot_sq args q sq rho w w0))
    = plt w0 ++ refs
      ++ [Plot (np.select q (np.less q (arg_qmax args)))
               (np.select sq (np.less q (arg_qmax args))) fmt] /\
    own_curves refs = [] /\ is_marker fmt = false /\
    (w = None -> refs = [] /\ fmt = None).
Proof.
  unfold plot_sq, bind, call, pyplot.
  rewrite !take_mask_less, Nat.eqb_refl.
  destruct w as [wz|].
  - destruct (window_index (arg_qmax args) (w_deltak wz)) as [jmax|];
      [|discriminate]. simpl.
    destruct (Nat.eqb (length sq) (length q)) eqn:Hlen; [|discriminate].
    intros _. split; [now apply Nat.eqb_eq|].
    eexists [_], _. simpl. rewrite <- app_assoc.
    repeat split; discriminate.
  - simpl.
    destruct (Nat.eqb (length sq) (length q)) eqn:Hlen; [|discriminate].
    intros _. split; [now apply Nat.eqb_eq|].
    exists [], None. simpl. repeat split; reflexivity.
Qed.

Lemma sadd_length (a : R) (v : list R) : length (np.sadd a v) = length v.
Proof. apply length_map. Qed.

Lemma smul_length (a : R) (v : list R) : length (np.smul a v) = length v.
Proof. apply length_map. Qed.

(** The plotting block, when it runs to the end. *)
Lemma show_block_ok (args : Args) (r q hr hq : list R) (rho : R)
  (w : option Wizard) (w0 : world) :
  arg_show args = true ->
  fst (show_block args r q hr hq rho w w0) = Ok tt ->
  length hr = length r /\ length hq = length q /\
  exists refs1 fmt1 refs2 fmt2,
    plt (snd (show_block args r q hr hq rho w w0))
    = plt w0
      ++ [Figure 1] ++ refs1
      ++ [Plot (np.select r (np.less r (arg_rmax args)))
               (np.select (np.sadd 1 hr) (np.less r (arg_rmax args))) fmt1;
          XLabel "$r$"; YLabel "$g(r)$"; Figure 2] ++ refs2
      ++ [Plot (np.select q (np.less q (arg_qmax args)))
               (np.select (np.sadd 1 (np.smul rho hq))
                  (np.less q (arg_qmax args))) fmt2;
          XLabel "$k$"; YLabel "$S(k)$"; Show] /\
    own_curves refs1 = [] /\ is_marker fmt1 = false /\
    own_curves refs2 = [] /\ is_marker fmt2 = false /\
    (w = None -> refs1 = [] /\ fmt1 = None /\ refs2 = [] /\ fmt2 = None).
Proof.
  intros Hshow. unfold show_block. rewrite Hshow.
  unfold bind, pyplot. cbn [stdout plt].
  pose proof (plot_gr_ok args r (np.sadd 1 hr) w
                (mkWorld (stdout w0) (plt w0 ++ [Figure 1]))) as Hgr.
  destruct (plot_gr args r (np.sadd 1 hr) w _) as [[[]|err] w2];
    [|discriminate].
  destruct (Hgr eq_refl) as (Hlen1 & refs1 & fmt1 & Hplt1 & Ho1 & Hm1 & Hn1).
  clear Hgr. cbn [snd stdout plt] in Hplt1.
  pose proof (plot_sq_ok args q (np.sadd 1 (np.smul rho hq)) rho w
                (mkWorld (stdout w2)
                   (((plt w2 ++ [XLabel "$r$"]) ++ [YLabel "$g(r)$"])
                    ++ [Figure 2]))) as Hsq.
  destruct (plot_sq args q (np.sadd 1 (np.smul rho hq)) rho w _)
    as [[[]|err] w4]; [|discriminate].
  destruct (Hsq eq_refl) as (Hlen2 & refs2 & fmt2 & Hplt2 & Ho2 & Hm2 & Hn2).
  clear Hsq. cbn [snd stdout plt] in Hplt2.
  intros _.
  rewrite sadd_length in Hlen1. rewrite sadd_length, smul_length in Hlen2.
  split; [exact Hlen1 | split; [exact Hlen2 |]].
  exists refs1, fmt1, refs2, fmt2.
  split.
  - cbn [snd stdout plt]. rewrite Hplt2, Hplt1.
    rewrite <- !app_assoc. reflexivity.
  - repeat (split; [assumption|]).
    intros Hw. destruct (Hn1 Hw), (Hn2 Hw). auto.
Qed.

(** The reference block leaves the plotting calls alone, and there is no
    module object afterwards unless [--sunlight] was given. *)
Lemma sunlight_block_plt (args : Args) (reference : Reference) (A rho : R)
  (w0 : world) :
  plt (snd (sunlight_block args reference A rho w0)) = plt w0 /\
  (arg_sunlight args = false ->
   fst (sunlight_block args reference A rho w0) = Ok None).
Proof.
  unfold sunlight_block, bind, call, print, ret.
  destruct (arg_sunlight args); [destruct (reference A rho)|]; simpl;
    split; try reflexivity; discriminate.
Qed.

Lemma g_points_window (args : Args) (r hr : list R) :
  length hr = length r ->
  (np.select r (np.less r (arg_rmax args)),
   np.select (np.sadd 1 hr) (np.less r (arg_rmax args)))
  = (map fst (Spec.window (arg_rmax args) (Spec.g_points r hr)),
     map snd (Spec.window (arg_rmax args) (Spec.g_points r hr))).
Proof.
  intros Hlen. unfold Spec.g_points.
  destruct (select_window r (np.sadd 1 hr) (arg_rmax args)) as [Hx Hy];
    [now rewrite sadd_length|].
  unfold np.sadd in *. now rewrite Hx, Hy.
Qed.

Lemma S_points_window (args : Args) (rho : R) (q hq : list R) :
  length hq = length q ->
  (np.select q (np.less q (arg_qmax args)),
   np.select (np.sadd 1 (np.smul rho hq)) (np.less q (arg_qmax args)))
  = (map fst (Spec.window (arg_qmax args) (Spec.S_points rho q hq)),
     map snd (Spec.window (arg_qmax args) (Spec.S_points rho q hq))).
Proof.
  intros Hlen. unfold Spec.S_points.
  destruct (select_window q (np.sadd 1 (np.smul rho hq)) (arg_qmax args))
    as [Hx Hy]; [now rewrite sadd_length, smul_length|].
  unfold np.sadd, np.smul in *. rewrite map_map in Hx, Hy |- *.
  now rewrite Hx, Hy.
Qed.

(** C8.  When plotting is requested and the run completes, the curves
    the script hands to the plotting library from its own arrays are
    exactly g(r) = 1 + h(r) restricted to the grid points with r < rmax
    and S(q) = 1 + rho h(q) restricted to those with q < qmax, in this
    order; without [--sunlight] these two curves, the labels and the
    final [show] are all the plotting library receives. *)
Theorem plots_are_windowed_fields (args : Args) (grid : Grid)
  (solve : Solver) (reference : Reference) (soln : Soln) (e p : R) :
  arg_show args = true ->
  compute args grid solve = Ok (soln, e, p) ->
  fst (run args grid solve reference) = Ok tt ->
  own_curves (plt (snd (run args grid solve reference)))
  = [ (map fst (Spec.window (arg_rmax args)
                  (Spec.g_points (grid_r grid) (soln_hr soln))),
       map snd (Spec.window (arg_rmax args)
                  (Spec.g_points (grid_r grid) (soln_hr soln))));
      (map fst (Spec.window (arg_qmax args)
                  (Spec.S_points (arg_rho args) (grid_q grid) (soln_hq soln))),
       map snd (Spec.window (arg_qmax args)
                  (Spec.S_points (arg_rho args) (grid_q grid)
                     (soln_hq soln)))) ] /\
  (arg_sunlight args = false ->
   plt (snd (run args grid solve reference))
   = [ Figure 1;
       Plot (map fst (Spec.window (arg_rmax args)
                        (Spec.g_points (grid_r grid) (soln_hr soln))))
            (map snd (Spec.window (arg_rmax args)
                        (Spec.g_points (grid_r grid) (soln_hr soln))))
            None;
       XLabel "$r$"; YLabel "$g(r)$";
       Figure 2;
       Plot (map fst (Spec.window (arg_qmax args)
                        (Spec.S_points (arg_rho args) (grid_q grid)
                           (soln_hq soln))))
            (map snd (Spec.window (arg_qmax args)
                        (Spec.S_points (arg_rho args) (grid_q grid)
                           (soln_hq soln))))
            None;
       XLabel "$k$"; YLabel "$S(k)$"; Show ]).
Proof.
  intros Hshow Hc. unfold run, main, bind, call. rewrite Hc, report_run.
  cbn [stdout plt world0].
  pose proof (sunlight_block_plt args reference (arg_A args) (arg_rho args)
                (mkWorld ([] ++ report_lines (arg_A args) (arg_rho args)
                                  (grid_version grid) e p) [])) as Hsun.
  destruct (sunlight_block args reference (arg_A args) (arg_rho args) _)
    as [[w|err] w2]; [|discriminate].
  destruct Hsun as [Hplt Hnone]. cbn [fst snd plt] in Hplt, Hnone.
  intros Hrun.
  destruct (show_block_ok args (grid_r grid) (grid_q grid) (soln_hr soln)
              (soln_hq soln) (arg_rho args) w w2 Hshow Hrun)
    as (Hlen1 & Hlen2 & refs1 & fmt1 & refs2 & fmt2 & Hcalls
        & Ho1 & Hm1 & Ho2 & Hm2 & Hnosun).
  pose proof (g_points_window args (grid_r grid) (soln_hr soln) Hlen1) as Hg.
  pose proof (S_points_window args (arg_rho args) (grid_q grid)
                (soln_hq soln) Hlen2) as HS.
  injection Hg as Hgx Hgy. injection HS as HSx HSy.
  rewrite Hcalls, Hplt, Hgx, Hgy, HSx, HSy. split.
  - rewrite !own_curves_app. simpl. rewrite Ho1, Ho2, Hm1, Hm2.
    reflexivity.
  - intros Hs. specialize (Hnone Hs). injection Hnone as Hw.
    destruct (Hnosun Hw) as (-> & -> & -> & ->). reflexivity.
Qed.

Lemma window_index_ok (xmax delta : R) :
  delta <> 0 -> window_index xmax delta = Ok (py_int (xmax / delta)).
Proof.
  intros H. unfold window_index.
  destruct (Req_dec_T delta 0); [contradiction | reflexivity].
Qed.

(** The run completes when the solver returns arrays aligned with the
    grid and, with [--sunlight], the reference engine runs and reports
    non-zero steps. *)
Lemma run_completes (args : Args) (grid : Grid) (solve : Solver)
  (reference : Reference) (soln : Soln) :
  solve (dpd_potential (arg_A args) (grid_r grid)) (arg_rho args) = Ok soln ->
  length (soln_hr soln) = length (grid_r grid) ->
  length (soln_hq soln) = length (grid_q grid) ->
  (arg_sunlight args = true ->
   exists wz, reference (arg_A args) (arg_rho args) = Ok wz /\
              w_deltar wz <> 0 /\ w_deltak wz <> 0) ->
  fst (run args grid solve reference) = Ok tt.
Proof.
  intros Hsolve Hhr Hhq Href.
  unfold run, main, bind, call.
  rewrite (compute_aligned args grid solve soln Hsolve Hhr), report_run.
  unfold sunlight_block, show_block, plot_gr, plot_sq, bind, call, print,
    pyplot, ret.
  rewrite !take_mask_less, !sadd_length, smul_length, Hhr, Hhq, !Nat.eqb_refl.
  destruct (arg_sunlight args).
  - destruct (Href eq_refl) as (wz & -> & Hr & Hk).
    rewrite !window_index_ok by assumption.
    destruct (arg_show args); reflexivity.
  - destruct (arg_show args); reflexivity.
Qed.

(** The sample run with [--sunlight --show]: the two curves drawn from
    the script's arrays, the reference curves left aside. *)
Lemma plots_are_windowed_fields_witness :
  own_curves
    (plt (snd (run (sample_args 25 3 true true) sample_grid sample_solver
                 sample_reference)))
  = [ (map fst (Spec.window 3
                  (Spec.g_points (grid_r sample_grid) (soln_hr sample_soln))),
       map snd (Spec.window 3
                  (Spec.g_points (grid_r sample_grid) (soln_hr sample_soln))));
      (map fst (Spec.window 25
                  (Spec.S_points 3 (grid_q sample_grid) (soln_hq sample_soln))),
       map snd (Spec.window 25
                  (Spec.S_points 3 (grid_q sample_grid)
                     (soln_hq sample_soln)))) ].
Proof.
  apply (plots_are_windowed_fields (sample_args 25 3 true true) sample_grid
           sample_solver sample_reference sample_soln
           (Spec.energy 25 3 (grid_r sample_grid) (1/2)
              (dpd_potential 25 (grid_r sample_grid)) (soln_hr sample_soln))
           (Spec.pressure 25 3 (grid_r sample_grid) (1/2)
              (dpd_force 25 (grid_r sample_grid)) (soln_hr sample_soln))).
  - reflexivity.
  - apply (compute_aligned (sample_args 25 3 true true) sample_grid
             sample_solver sample_soln); reflexivity.
  - apply (run_completes (sample_args 25 3 true true) sample_grid
             sample_solver sample_reference sample_soln);
      try reflexivity.
    intros _. exists sample_wizard. simpl.
    split; [reflexivity | split; lra].
Defined.

(** ** What hq can reach *)

Lemma before_figure2_app (calls rest : list plt_call) :
  Forall (fun c => c <> Figure 2) calls ->
  before_figure2 (calls ++ Figure 2 :: rest) = calls.
Proof.
  induction 1 as [|c calls Hc _ IH]; [reflexivity|].
  simpl. rewrite IH.
  destruct c as [[|[|[|n]]]|x y fmt|s|s|]; try reflexivity.
  now contradiction Hc.
Qed.

Lemma plot_gr_appends (args : Args) (r gr : list R) (w : option Wizard)
  (w0 : world) :
  exists extra,
    plt (snd (plot_gr args r gr w w0)) = plt w0 ++ extra /\
    Forall (fun c => c <> Figure 2) extra.
Proof.
  unfold plot_gr, bind, call, pyplot.
  destruct w as [wz|].
  - destruct (window_index _ _); [|exists []; simpl; now rewrite app_nil_r].
    destruct (np.take_mask r _); simpl;
      [|eexists [_]; split; [reflexivity | repeat constructor; discriminate]].
    destruct (np.take_mask gr _); simpl.
    + eexists [_; _]. rewrite <- app_assoc.
      split; [reflexivity | repeat constructor; discriminate].
    + eexists [_]; split; [reflexivity | repeat constructor; discriminate].
  - destruct (np.take_mask r _); simpl;
      [|exists []; simpl; now rewrite app_nil_r].
    destruct (np.take_mask gr _); simpl.
    + eexists [_]; split; [reflexivity | repeat constructor; discriminate].
    + exists []; simpl; now rewrite app_nil_r.
Qed.

Lemma plot_sq_appends (args : Args) (q sq : list R) (rho : R)
  (w : option Wizard) (w0 : world) :
  exists extra, plt (snd (plot_sq args q sq rho w w0)) = plt w0 ++ extra.
Proof.
  unfold plot_sq, bind, call, pyplot.
  destruct w as [wz|].
  - destruct (window_index _ _); [|exists []; simpl; now rewrite app_nil_r].
    destruct (np.take_mask q _); simpl; [|eexists [_]; reflexivity].
    destruct (np.take_mask sq _); simpl.
    + eexists [_; _]. now rewrite <- app_assoc.
    + eexists [_]; reflexivity.
  - destruct (np.take_mask q _); simpl;
      [|exists []; simpl; now rewrite app_nil_r].
    destruct (np.take_mask sq _); simpl.
    + eexists [_]; reflexivity.
    + exists []; simpl; now rewrite app_nil_r.
Qed.

Lemma before_figure2_extends (calls l : list plt_call) :
  Forall (fun c => c <> Figure 2) calls ->
  (exists t, l = (calls ++ [Figure 2]) ++ t) ->
  before_figure2 l = calls.
Proof.
  intros Hno [t ->]. rewrite <- app_assoc. now apply before_figure2_app.
Qed.

(** Up to [plt.figure(2)] the plotting block does not read hq. *)
Lemma show_block_before_figure2 (args : Args) (r q hr hq hq' : list R)
  (rho : R) (w : option Wizard) (w0 : world) :
  plt w0 = [] ->
  before_figure2 (plt (snd (show_block args r q hr hq rho w w0)))
  = before_figure2 (plt (snd (show_block args r q hr hq' rho w w0))).
Proof.
  intros Hw0. unfold show_block.
  destruct (arg_show args); [|reflexivity].
  unfold bind, pyplot. cbn [stdout plt].
  destruct (plot_gr_appends args r (np.sadd 1 hr) w
              (mkWorld (stdout w0) (plt w0 ++ [Figure 1])))
    as (extra & Hextra & Hno).
  destruct (plot_gr args r (np.sadd 1 hr) w _) as [[[]|err] w2];
    [|reflexivity].
  cbn [snd plt] in Hextra. rewrite Hw0 in Hextra. simpl in Hextra.
  set (w3 := mkWorld _ _).
  assert (H3 : plt w3
               = ((Figure 1 :: extra ++ [XLabel "$r$"; YLabel "$g(r)$"])
                  ++ [Figure 2]) ++ []).
  { subst w3. cbn [plt]. rewrite Hextra. simpl.
    now rewrite <- !app_assoc. }
  assert (Hno' : Forall (fun c => c <> Figure 2)
                   (Figure 1 :: extra ++ [XLabel "$r$"; YLabel "$g(r)$"])).
  { constructor; [discriminate|].
    apply Forall_app; split; [exact Hno | repeat constructor; discriminate]. }
  destruct (plot_sq_appends args q (np.sadd 1 (np.smul rho hq)) rho w w3)
    as (tail & Htail).
  destruct (plot_sq_appends args q (np.sadd 1 (np.smul rho hq')) rho w w3)
    as (tail' & Htail').
  rewrite H3, app_nil_r in Htail, Htail'.
  transitivity (Figure 1 :: extra ++ [XLabel "$r$"; YLabel "$g(r)$"]);
    [|symmetry].
  - apply before_figure2_extends; [exact Hno'|].
    destruct (plot_sq args q (np.sadd 1 (np.smul rho hq)) rho w w3)
      as [[[]|e1] w4]; cbn [snd plt] in *; rewrite Htail.
    + eexists. rewrite <- !app_assoc. reflexivity.
    + eexists. reflexivity.
  - apply before_figure2_extends; [exact Hno'|].
    destruct (plot_sq args q (np.sadd 1 (np.smul rho hq')) rho w w3)
      as [[[]|e1] w4]; cbn [snd plt] in *; rewrite Htail'.
    + eexists. rewrite <- !app_assoc. reflexivity.
    + eexists. reflexivity.
Qed.

(** C9.  e and p depend on the solver's real-space array hr only: two
    solver outputs with the same hr and any hq (same A, rho and grid)
    give the same e and p, hence the same printed lines, and the same
    plotting calls up to [plt.figure(2)]; hq is read for the structure
    factor of figure 2 alone. *)
Theorem thermo_independent_of_hq (args : Args) (grid : Grid)
  (solve solve' : Solver) (reference : Reference) (s s' : Soln) :
  solve (dpd_potential (arg_A args) (grid_r grid)) (arg_rho args) = Ok s ->
  solve' (dpd_potential (arg_A args) (grid_r grid)) (arg_rho args) = Ok s' ->
  soln_hr s = soln_hr s' ->
  thermo args grid solve = thermo args grid solve' /\
  stdout (snd (run args grid solve reference))
  = stdout (snd (run args grid solve' reference)) /\
  before_figure2 (plt (snd (run args grid solve reference)))
  = before_figure2 (plt (snd (run args grid solve' reference))).
Proof.
  intros Hs Hs' Hhr.
  split; [now apply (thermo_same_hr args grid solve solve' s s')|].
  assert (Hc : exists ep,
             compute args grid solve
             = (x <- ep ;; Ok (s, fst x, snd x))%result /\
             compute args grid solve'
             = (x <- ep ;; Ok (s', fst x, snd x))%result).
  { exists (integrate (arg_A args) (arg_rho args) (grid_r grid)
              (grid_deltar grid) (dpd_potential (arg_A args) (grid_r grid))
              (dpd_force (arg_A args) (grid_r grid)) (soln_hr s)).
    unfold compute, integrate. rewrite Hs, Hs'. cbn [rbind]. rewrite <- Hhr.
    destruct (energy_density _ _ _ _ _ _); [|split; reflexivity].
    cbn [rbind].
    destruct (virial_pressure _ _ _ _ _ _); split; reflexivity. }
  destruct Hc as ([[e p]|err] & Hc & Hc'); cbn [rbind fst snd] in Hc, Hc'.
  - split; [now rewrite !run_stdout, Hc, Hc'|].
    unfold run, main, bind, call. rewrite Hc, Hc', !report_run.
    cbn [stdout plt world0].
    pose proof (sunlight_block_plt args reference (arg_A args) (arg_rho args)
                  (mkWorld ([] ++ report_lines (arg_A args) (arg_rho args)
                                    (grid_version grid) e p) []))
      as [Hplt _].
    destruct (sunlight_block args reference (arg_A args) (arg_rho args) _)
      as [[w|err] w2]; [|reflexivity].
    cbn [snd plt] in Hplt. rewrite <- Hhr.
    now apply show_block_before_figure2.
  - split; [now rewrite !run_stdout, Hc, Hc'|].
    unfold run, main, bind, call. now rewrite Hc, Hc'.
Qed.

(** Two solvers on the sample grid that agree on hr and differ on hq. *)
Lemma thermo_independent_of_hq_witness :
  thermo (sample_args 25 3 false true) sample_grid sample_solver
  = thermo (sample_args 25 3 false true) sample_grid
      (fun _ _ => Ok (mkSoln (soln_hr sample_soln) [9; 9; 9; 9])) /\
  stdout (snd (run (sample_args 25 3 false true) sample_grid sample_solver
                 sample_reference))
  = stdout (snd (run (sample_args 25 3 false true) sample_grid
                   (fun _ _ => Ok (mkSoln (soln_hr sample_soln) [9; 9; 9; 9]))
                   sample_reference)) /\
  before_figure2
    (plt (snd (run (sample_args 25 3 false true) sample_grid sample_solver
                 sample_reference)))
  = before_figure2
      (plt (snd (run (sample_args 25 3 false true) sample_grid
                   (fun _ _ => Ok (mkSoln (soln_hr sample_soln) [9; 9; 9; 9]))
                   sample_reference))).
Proof.
  apply (thermo_independent_of_hq (sample_args 25 3 false true) sample_grid
           sample_solver
           (fun _ _ => Ok (mkSoln (soln_hr sample_soln) [9; 9; 9; 9]))
           sample_reference sample_soln
           (mkSoln (soln_hr sample_soln) [9; 9; 9; 9]));
    reflexivity.
Defined.

(** ** The script on misaligned solver output *)

(** When the solver returns an hr whose length is neither the grid's
    nor 1 (and the grid has more than one point), the run ends with
    [ShapeMismatch] before anything is printed or drawn. *)
Lemma run_shape_mismatch (args : Args) (grid : Grid) (solve : Solver)
  (reference : Reference) (soln : Soln) :
  solve (dpd_potential (arg_A args) (grid_r grid)) (arg_rho args) = Ok soln ->
  length (soln_hr soln) <> length (grid_r grid) ->
  length (grid_r grid) <> 1%nat -> length (soln_hr soln) <> 1%nat ->
  run args grid solve reference = (Err ShapeMismatch, world0).
Proof.
  intros Hsolve Hne Hn Hm.
  unfold run, main, bind, call, compute. rewrite Hsolve. cbn [rbind].
  unfold energy_density, np.multiply.
  rewrite broadcast_aligned
    by (now rewrite power_length, dpd_potential_length).
  cbn [rbind].
  rewrite broadcast_mismatch; [reflexivity | | | assumption];
    rewrite zip_with_length; rewrite power_length;
    rewrite ?dpd_potential_length; congruence.
Qed.

(** ** Runs on small inputs *)

Ltac compare_reals :=
  repeat match goal with
         | |- context [Rlt_dec ?a ?b] =>
             destruct (Rlt_dec a b); [try (exfalso; lra) | try (exfalso; lra)]
         | |- context [Req_dec_T ?a ?b] =>
             destruct (Req_dec_T a b); [try (exfalso; lra) | try (exfalso; lra)]
         end.

Ltac entrywise :=
  repeat (apply (f_equal2 (@cons R)); [field |]); reflexivity.

Example dpd_potential_sample :
  dpd_potential 25 [0; 1/2; 1; 3/2] = [25/2; 25/8; 0; 0].
Proof.
  unfold dpd_potential, truncate_to_zero, np.smul, np.power, np.rsub.
  simpl. compare_reals. entrywise.
Qed.

Example dpd_force_sample :
  dpd_force 25 [0; 1/2; 1; 3/2] = [25; 25/2; 0; 0].
Proof.
  unfold dpd_force, truncate_to_zero, np.smul, np.rsub.
  simpl. compare_reals. entrywise.
Qed.

Example trapz_sample : np.trapz [0; 1; 4] (1/2) = 3/2.
Proof. unfold np.trapz, np.sum; simpl. field. Qed.

Example trapz_single : np.trapz [5] (1/2) = 0.
Proof. reflexivity. Qed.

Example multiply_stretches : np.multiply [1; 2; 3] [2] = Ok [1 * 2; 2 * 2; 3 * 2].
Proof. reflexivity. Qed.

Example multiply_raises : np.multiply [1; 2; 3] [2; 2] = Err ShapeMismatch.
Proof. reflexivity. Qed.

Example less_sample : np.less [0; 1/2; 1; 3/2] 1 = [true; true; false; false].
Proof. unfold np.less, np.ltb; simpl. compare_reals. reflexivity. Qed.

Example slice_to_negative : np.slice_to [1; 2; 3] (-1) = [1; 2].
Proof. reflexivity. Qed.

(** The canonical case with the comparison on, and another amplitude
    without it. *)
Example stdout_canonical :
  exists e p,
    stdout (snd (run (sample_args 25 3 true false) sample_grid sample_solver
                   sample_reference))
    = [ModelLine 25 3; MonteCarloLine; PyHNCLine "1.0" e p;
       SunlightLine "1.13" 14 24].
Proof.
  do 2 eexists. rewrite run_stdout.
  rewrite (compute_aligned _ _ _ sample_soln) by reflexivity.
  unfold report_lines; simpl. compare_reals. reflexivity.
Qed.

Example stdout_other_amplitude :
  exists e p,
    stdout (snd (run (sample_args 15 3 false false) sample_grid sample_solver
                   sample_reference))
    = [ModelLine 15 3; PyHNCLine "1.0" e p].
Proof.
  do 2 eexists. rewrite run_stdout.
  rewrite (compute_aligned _ _ _ sample_soln) by reflexivity.
  unfold report_lines; simpl. compare_reals. reflexivity.
Qed.

(** * Further properties of the script *)

(** ** How a run can end *)

(** X1.  When the solver raises, the run ends with the solver's exception and
    nothing has been printed or drawn. *)
Theorem solver_error_propagates (args : Args) (grid : Grid) (solve : Solver)
  (reference : Reference) (err : error) :
  solve (dpd_potential (arg_A args) (grid_r grid)) (arg_rho args) = Err err ->
  run args grid solve reference = (Err err, world0).
Proof.
  intros Hsolve. unfold run, main, bind, call, compute.
  now rewrite Hsolve.
Qed.

Lemma solver_error_propagates_witness :
  run (sample_args 25 3 true true) sample_grid
    (fun _ _ => Err SolverDidNotConverge) sample_reference
  = (Err SolverDidNotConverge, world0).
Proof.
  apply (solver_error_propagates (sample_args 25 3 true true) sample_grid
           (fun _ _ => Err SolverDidNotConverge) sample_reference
           SolverDidNotConverge).
  reflexivity.
Defined.

(** X2.  The solver returns hr of a length that is neither the grid's nor 1,
    on a grid of more than one point: the run ends with [ShapeMismatch]
    and nothing has been printed or drawn. *)
Theorem misaligned_solver_output_aborts (args : Args) (grid : Grid)
  (solve : Solver) (reference : Reference) (soln : Soln) :
  solve (dpd_potential (arg_A args) (grid_r grid)) (arg_rho args) = Ok soln ->
  length (soln_hr soln) <> length (grid_r grid) ->
  length (grid_r grid) <> 1%nat -> length (soln_hr soln) <> 1%nat ->
  run args grid solve reference = (Err ShapeMismatch, world0).
Proof.
  intros Hsolve Hne Hn Hm.
  unfold run, main, bind, call, compute. rewrite Hsolve. cbn [rbind].
  unfold energy_density, np.multiply.
  rewrite broadcast_aligned
    by (now rewrite power_length, dpd_potential_length).
  cbn [rbind].
  rewrite broadcast_mismatch; [reflexivity | | | assumption];
    rewrite zip_with_length; rewrite power_length;
    rewrite ?dpd_potential_length; congruence.
Qed.

Lemma misaligned_solver_output_aborts_witness :
  run (sample_args 25 3 true true) sample_grid
    (fun _ _ => Ok (mkSoln [0; 0] [0; 0; 0; 0])) sample_reference
  = (Err ShapeMismatch, world0).
Proof.
  apply (misaligned_solver_output_aborts (sample_args 25 3 true true)
           sample_grid (fun _ _ => Ok (mkSoln [0; 0] [0; 0; 0; 0]))
           sample_reference (mkSoln [0; 0] [0; 0; 0; 0]));
    simpl; congruence.
Defined.

(** X3.  With [--sunlight], when the reference engine raises, the run ends
    with the engine's exception after the script's own report has been
    printed in full; nothing has been drawn. *)
Theorem reference_error_after_report (args : Args) (grid : Grid)
  (solve : Solver) (reference : Reference) (soln : Soln) (e p : R)
  (err : error) :
  arg_sunlight args = true ->
  compute args grid solve = Ok (soln, e, p) ->
  reference (arg_A args) (arg_rho args) = Err err ->
  run args grid solve reference
  = (Err err,
     mkWorld (report_lines (arg_A args) (arg_rho args) (grid_version grid)
                e p) []).
Proof.
  intros Hsun Hc Href. unfold run, main, bind, call.
  rewrite Hc, report_run. unfold sunlight_block, bind, call.
  now rewrite Hsun, Href.
Qed.

Lemma reference_error_after_report_witness :
  run (sample_args 25 3 true true) sample_grid sample_solver
    (fun _ _ => Err ReferenceUnavailable)
  = (Err ReferenceUnavailable,
     mkWorld (report_lines 25 3 "1.0"
                (Spec.energy 25 3 (grid_r sample_grid) (1/2)
                   (dpd_potential 25 (grid_r sample_grid))
                   (soln_hr sample_soln))
                (Spec.pressure 25 3 (grid_r sample_grid) (1/2)
                   (dpd_force 25 (grid_r sample_grid))
                   (soln_hr sample_soln))) []).
Proof.
  apply (reference_error_after_report (sample_args 25 3 true true)
           sample_grid sample_solver (fun _ _ => Err ReferenceUnavailable)
           sample_soln).
  - reflexivity.
  - apply (compute_aligned (sample_args 25 3 true true) sample_grid
             sample_solver sample_soln); reflexivity.
  - reflexivity.
Defined.

(** X4.  Without [--show] no call is made to the plotting library, however the
    run ends. *)
Theorem no_show_no_plot (args : Args) (grid : Grid) (solve : Solver)
  (reference : Reference) :
  arg_show args = false ->
  plt (snd (run args grid solve reference)) = [].
Proof.
  intros Hshow. unfold run, main, bind, call.
  destruct (compute args grid solve) as [[[soln e] p]|err]; [|reflexivity].
  rewrite report_run.
  pose proof (sunlight_block_plt args reference (arg_A args) (arg_rho args)
                (mkWorld (stdout world0
                          ++ report_lines (arg_A args) (arg_rho args)
                               (grid_version grid) e p) (plt world0)))
    as [Hplt _].
  destruct (sunlight_block args reference (arg_A args) (arg_rho args) _)
    as [[w|err] w2]; cbn [snd] in *; [|exact Hplt].
  unfold show_block. rewrite Hshow. exact Hplt.
Qed.

Lemma no_show_no_plot_witness :
  plt (snd (run (sample_args 25 3 true false) sample_grid sample_solver
              sample_reference)) = [].
Proof.
  apply (no_show_no_plot (sample_args 25 3 true false) sample_grid
           sample_solver sample_reference).
  reflexivity.
Defined.



(** X6.  Whenever e and p are computed, stdout is, in this order: the model
    line, the Monte-Carlo line (for A = 25 and rho = 3 only), the line
    of e and p, and with [--sunlight] the line of the reference engine's
    values for the same A and rho, if the engine ran.  Nothing else is
    printed, whether or not the plots succeed. *)
Theorem stdout_in_order (args : Args) (grid : Grid) (solve : Solver)
  (reference : Reference) (soln : Soln) (e p : R) :
  compute args grid solve = Ok (soln, e, p) ->
  stdout (snd (run args grid solve reference))
  = [ModelLine (arg_A args) (arg_rho args)]
    ++ (if Req_dec_T (arg_A args) 25 then
          if Req_dec_T (arg_rho args) 3 then [MonteCarloLine] else []
        else [])
    ++ [PyHNCLine (grid_version grid) e p]
    ++ (if arg_sunlight args then
          match reference (arg_A args) (arg_rho args) with
          | Ok wz => [SunlightLine (w_version wz) (w_uex wz) (w_press wz)]
          | Err _ => []
          end
        else []).
Proof.
  intros Hc. rewrite run_stdout, Hc. unfold report_lines.
  simpl. now rewrite <- app_assoc.
Qed.

Lemma stdout_in_order_witness :
  stdout (snd (run (sample_args 25 3 true true) sample_grid sample_solver
                 sample_reference))
  = [ModelLine 25 3]
    ++ (if Req_dec_T 25 25 then
          if Req_dec_T 3 3 then [MonteCarloLine] else []
        else [])
    ++ [PyHNCLine "1.0"
          (Spec.energy 25 3 (grid_r sample_grid) (1/2)
             (dpd_potential 25 (grid_r sample_grid)) (soln_hr sample_soln))
          (Spec.pressure 25 3 (grid_r sample_grid) (1/2)
             (dpd_force 25 (grid_r sample_grid)) (soln_hr sample_soln))]
    ++ [SunlightLine "1.13" 14 24].
Proof.
  apply (stdout_in_order (sample_args 25 3 true true) sample_grid
           sample_solver sample_reference sample_soln).
  apply (compute_aligned (sample_args 25 3 true true) sample_grid
           sample_solver sample_soln); reflexivity.
Defined.

(** ** A correlation array of length 1 *)

Lemma zip_with_repeat (op : R -> R -> R) (x : list R) (c : R) :
  np.zip_with op x (repeat c (length x)) = map (fun a => op a c) x.
Proof. induction x as [|a x IH]; simpl; [reflexivity | now rewrite IH]. Qed.

(** numpy stretches a one-element right operand along the other array. *)
Lemma broadcast_stretch (op : R -> R -> R) (x : list R) (c : R) :
  np.broadcast op x [c] = Ok (np.zip_with op x (repeat c (length x))).
Proof.
  unfold np.broadcast. rewrite zip_with_repeat.
  destruct x as [|a [|a' x]]; reflexivity.
Qed.

Lemma products_stretch (k : nat) (r w : list R) (c : R) :
  length w = length r ->
  (rw <- np.multiply (np.power r k) w ;; np.multiply rw [c])%result
  = Ok (Spec.integrand k r w (repeat c (length r))).
Proof.
  intros Hw. unfold np.multiply.
  rewrite broadcast_aligned by (now rewrite power_length).
  cbn [rbind]. rewrite broadcast_stretch.
  rewrite zip_with_length by (now rewrite power_length).
  now rewrite power_length, zip_integrand.
Qed.

Lemma energy_density_stretch (A rho : R) (r : list R) (dr : R)
  (phi : list R) (c : R) :
  length phi = length r ->
  energy_density A rho r dr phi [c]
  = Ok (Spec.energy A rho r dr phi (repeat c (length r))).
Proof.
  intros Hphi. pose proof (products_stretch 2 r phi c Hphi) as He.
  unfold energy_density.
  destruct (np.multiply (np.power r 2) phi) as [r2phi|]; [|discriminate].
  cbn [rbind] in *. rewrite He. cbn [rbind]. now rewrite trapz_trapezoid.
Qed.

Lemma virial_pressure_stretch (A rho : R) (r : list R) (dr : R)
  (f : list R) (c : R) :
  length f = length r ->
  virial_pressure A rho r dr f [c]
  = Ok (Spec.pressure A rho r dr f (repeat c (length r))).
Proof.
  intros Hf. pose proof (products_stretch 3 r f c Hf) as Hp.
  unfold virial_pressure.
  destruct (np.multiply (np.power r 3) f) as [r3f|]; [|discriminate].
  cbn [rbind] in *. rewrite Hp. cbn [rbind]. now rewrite trapz_trapezoid.
Qed.

Lemma compute_single_entry (args : Args) (grid : Grid) (solve : Solver)
  (soln : Soln) (c : R) :
  solve (dpd_potential (arg_A args) (grid_r grid)) (arg_rho args) = Ok soln ->
  soln_hr soln = [c] ->
  compute args grid solve
  = Ok (soln,
        Spec.energy (arg_A args) (arg_rho args) (grid_r grid)
          (grid_deltar grid) (dpd_potential (arg_A args) (grid_r grid))
          (repeat c (length (grid_r grid))),
        Spec.pressure (arg_A args) (arg_rho args) (grid_r grid)
          (grid_deltar grid) (dpd_force (arg_A args) (grid_r grid))
          (repeat c (length (grid_r grid)))).
Proof.
  intros Hsolve Hhr. unfold compute. rewrite Hsolve. cbn [rbind].
  rewrite Hhr, energy_density_stretch, virial_pressure_stretch;
    try apply dpd_potential_length; try apply dpd_force_length.
  reflexivity.
Qed.

(** X7.  A correlation array with a single entry [c] is accepted on any grid
    and integrated as the constant function [c]: lines 85-86 return what
    they return for [c] repeated at every grid point. *)
Theorem integrate_single_entry (A rho : R) (r : list R) (dr : R)
  (phi f : list R) (c : R) :
  length phi = length r -> length f = length r ->
  integrate A rho r dr phi f [c]
  = Ok (Spec.energy A rho r dr phi (repeat c (length r)),
        Spec.pressure A rho r dr f (repeat c (length r))).
Proof.
  intros Hphi Hf. unfold integrate.
  now rewrite energy_density_stretch, virial_pressure_stretch.
Qed.

Lemma integrate_single_entry_witness :
  integrate 25 3 [0; 1/2; 1] (1/2) [1; 2; 3] [4; 5; 6] [7]
  = Ok (Spec.energy 25 3 [0; 1/2; 1] (1/2) [1; 2; 3] [7; 7; 7],
        Spec.pressure 25 3 [0; 1/2; 1] (1/2) [4; 5; 6] [7; 7; 7]).
Proof.
  apply (integrate_single_entry 25 3 [0; 1/2; 1] (1/2) [1; 2; 3] [4; 5; 6] 7);
    reflexivity.
Defined.

(** ** Misaligned arrays in the plots *)

(** X8.  If e and p were computed although hr does not have the grid's length
    (numpy stretched one of the arrays), a run with [--show] and without
    [--sunlight] prints the report, opens figure 1 and ends there with
    [IndexMismatch]: the mask [r < rmax] does not fit [gr]. *)
Theorem misaligned_hr_fails_in_figure1 (args : Args) (grid : Grid)
  (solve : Solver) (reference : Reference) (soln : Soln) (e p : R) :
  arg_show args = true -> arg_sunlight args = false ->
  compute args grid solve = Ok (soln, e, p) ->
  length (soln_hr soln) <> length (grid_r grid) ->
  run args grid solve reference
  = (Err IndexMismatch,
     mkWorld (report_lines (arg_A args) (arg_rho args) (grid_version grid)
                e p) [Figure 1]).
Proof.
  intros Hshow Hsun Hc Hne. unfold run, main, bind, call.
  rewrite Hc, report_run. unfold sunlight_block, show_block, plot_gr.
  rewrite Hshow, Hsun. unfold bind, call, pyplot, ret.
  rewrite !take_mask_less, Nat.eqb_refl, sadd_length.
  now rewrite (proj2 (Nat.eqb_neq _ _) Hne).
Qed.

Lemma misaligned_hr_fails_in_figure1_witness :
  run (sample_args 25 3 false true) sample_grid
    (fun _ _ => Ok (mkSoln [-1] [0; 0; 0; 0])) sample_reference
  = (Err IndexMismatch,
     mkWorld (report_lines 25 3 "1.0"
                (Spec.energy 25 3 (grid_r sample_grid) (1/2)
                   (dpd_potential 25 (grid_r sample_grid)) [-1; -1; -1; -1])
                (Spec.pressure 25 3 (grid_r sample_grid) (1/2)
                   (dpd_force 25 (grid_r sample_grid)) [-1; -1; -1; -1]))
        [Figure 1]).
Proof.
  apply (misaligned_hr_fails_in_figure1 (sample_args 25 3 false true)
           sample_grid (fun _ _ => Ok (mkSoln [-1] [0; 0; 0; 0]))
           sample_reference (mkSoln [-1] [0; 0; 0; 0])).
  - reflexivity.
  - reflexivity.
  - apply (compute_single_entry (sample_args 25 3 false true) sample_grid
             (fun _ _ => Ok (mkSoln [-1] [0; 0; 0; 0]))
             (mkSoln [-1] [0; 0; 0; 0]) (-1)); reflexivity.
  - simpl. congruence.
Defined.

(** X9.  The solver returns hr aligned with the grid and hq of another length
    than [grid.q]: e and p are computed and reported, and with [--show]
    and without [--sunlight] figure 1 is drawn in full, figure 2 is
    opened, and the run ends there with [IndexMismatch]. *)
Theorem misaligned_hq_fails_in_figure2 (args : Args) (grid : Grid)
  (solve : Solver) (reference : Reference) (soln : Soln) :
  arg_show args = true -> arg_sunlight args = false ->
  solve (dpd_potential (arg_A args) (grid_r grid)) (arg_rho args) = Ok soln ->
  length (soln_hr soln) = length (grid_r grid) ->
  length (soln_hq soln) <> length (grid_q grid) ->
  fst (run args grid solve reference) = Err IndexMismatch /\
  plt (snd (run args grid solve reference))
  = [ Figure 1;
      Plot (np.select (grid_r grid) (np.less (grid_r grid) (arg_rmax args)))
           (np.select (np.sadd 1 (soln_hr soln))
              (np.less (grid_r grid) (arg_rmax args))) None;
      XLabel "$r$"; YLabel "$g(r)$"; Figure 2 ] /\
  In (PyHNCLine (grid_version grid)
        (Spec.energy (arg_A args) (arg_rho args) (grid_r grid)
           (grid_deltar grid) (dpd_potential (arg_A args) (grid_r grid))
           (soln_hr soln))
        (Spec.pressure (arg_A args) (arg_rho args) (grid_r grid)
           (grid_deltar grid) (dpd_force (arg_A args) (grid_r grid))
           (soln_hr soln)))
     (stdout (snd (run args grid solve reference))).
Proof.
  intros Hshow Hsun Hsolve Hhr Hhq.
  rewrite run_stdout. unfold run, main, bind, call.
  rewrite (compute_aligned args grid solve soln Hsolve Hhr), report_run.
  unfold sunlight_block, show_block, plot_gr, plot_sq.
  rewrite Hshow, Hsun. unfold bind, call, pyplot, ret.
  rewrite !take_mask_less, !Nat.eqb_refl, !sadd_length, smul_length, Hhr,
    Nat.eqb_refl.
  rewrite (proj2 (Nat.eqb_neq _ _) Hhq). cbn [fst snd plt stdout world0].
  split; [reflexivity | split; [reflexivity |]].
  rewrite app_nil_r. unfold report_lines.
  right. apply in_or_app. right. left. reflexivity.
Qed.

Lemma misaligned_hq_fails_in_figure2_witness :
  fst (run (sample_args 25 3 false true) sample_grid
         (fun _ _ => Ok (mkSoln (soln_hr sample_soln) [0; 0]))
         sample_reference) = Err IndexMismatch.
Proof.
  apply (misaligned_hq_fails_in_figure2 (sample_args 25 3 false true)
           sample_grid (fun _ _ => Ok (mkSoln (soln_hr sample_soln) [0; 0]))
           sample_reference (mkSoln (soln_hr sample_soln) [0; 0]));
    try reflexivity.
  simpl. congruence.
Defined.

(** ** How e and p depend on their inputs *)

Lemma integrand_length (k : nat) (r w h : list R) :
  length w = length r -> length h = length r ->
  length (Spec.integrand k r w h) = length r.
Proof.
  revert w h; induction r as [|ri r IH]; intros [|wi w] [|hi h] Hw Hh;
    simpl in *; try discriminate; auto.
Qed.

Lemma trapezoid_short (y : list R) (dx : R) :
  (length y <= 1)%nat -> Spec.trapezoid y dx = 0.
Proof.
  destruct y as [|a [|b y]]; simpl; intros H; try reflexivity; lia.
Qed.

(** X10.  On a grid of fewer than two points there is no interval to integrate
    over: for aligned arrays lines 85-86 return the mean-field terms
    whatever the correlation is. *)
Theorem integrate_short_grid (A rho : R) (r : list R) (dr : R)
  (phi f h : list R) :
  (length r <= 1)%nat ->
  length phi = length r -> length f = length r -> length h = length r ->
  integrate A rho r dr phi f h
  = Ok (2 * PI * rho ^ 2 * (A / 60), rho + 2 * PI * rho ^ 2 / 3 * (A / 20)).
Proof.
  intros Hshort Hphi Hf Hh. unfold integrate.
  rewrite energy_density_aligned, virial_pressure_aligned by assumption.
  cbn [rbind]. unfold Spec.energy, Spec.pressure.
  rewrite !trapezoid_short by (rewrite integrand_length; assumption).
  do 2 f_equal; ring.
Qed.

Lemma integrate_short_grid_witness :
  integrate 25 3 [1/2] (1/2) [7] [8] [9]
  = Ok (2 * PI * 3 ^ 2 * (25 / 60), 3 + 2 * PI * 3 ^ 2 / 3 * (25 / 20)).
Proof.
  apply (integrate_short_grid 25 3 [1/2] (1/2) [7] [8] [9]);
    simpl; auto.
Defined.

Lemma integrand_cutoff (k : nat) (w : R -> R) (r h h' : list R) :
  (forall x, 1 <= x -> w x = 0) ->
  length h = length r -> length h' = length r ->
  (forall i, (i < length r)%nat -> nth i r 0 < 1 -> nth i h 0 = nth i h' 0) ->
  Spec.integrand k r (map w r) h = Spec.integrand k r (map w r) h'.
Proof.
  intros Hw. revert h h'.
  induction r as [|ri r IH]; intros [|hi h] [|hi' h'] Hh Hh' Hagree;
    simpl in *; try discriminate; [reflexivity|].
  rewrite (IH h h'); try lia.
  - f_equal. destruct (Rlt_dec ri 1) as [Hlt|Hge].
    + now rewrite (Hagree 0%nat (Nat.lt_0_succ _) Hlt).
    + rewrite Hw by lra. ring.
  - intros i Hi Hlt. apply (Hagree (S i)); [lia | exact Hlt].
Qed.

Lemma phi_beyond_cutoff (A x : R) : 1 <= x -> Spec.phi A x = 0.
Proof. intros H; unfold Spec.phi; destruct (Rlt_dec x 1); [lra | easy]. Qed.

Lemma f_beyond_cutoff (A x : R) : 1 <= x -> Spec.f A x = 0.
Proof. intros H; unfold Spec.f; destruct (Rlt_dec x 1); [lra | easy]. Qed.

(** X11.  Only the correlation inside the interaction range counts: two
    correlation arrays (aligned with the grid) that agree at every grid
    point with r < 1 give the same e and p for the built potential and
    force, whatever they are from r = 1 on. *)
Theorem integrate_ignores_beyond_cutoff (A rho : R) (r : list R) (dr : R)
  (h h' : list R) :
  length h = length r -> length h' = length r ->
  (forall i, (i < length r)%nat -> nth i r 0 < 1 -> nth i h 0 = nth i h' 0) ->
  integrate A rho r dr (dpd_potential A r) (dpd_force A r) h
  = integrate A rho r dr (dpd_potential A r) (dpd_force A r) h'.
Proof.
  intros Hh Hh' Hagree. unfold integrate.
  rewrite !energy_density_aligned, !virial_pressure_aligned;
    try assumption; try apply dpd_potential_length;
    try apply dpd_force_length.
  unfold Spec.energy, Spec.pressure.
  rewrite dpd_potential_map, dpd_force_map.
  rewrite (integrand_cutoff 2 (Spec.phi A) r h h');
    try assumption; [|apply phi_beyond_cutoff].
  rewrite (integrand_cutoff 3 (Spec.f A) r h h');
    try assumption; [|apply f_beyond_cutoff].
  reflexivity.
Qed.

(** On the grid 0, 1/2, 1, 3/2 the last two entries of hr do not count. *)
Lemma integrate_ignores_beyond_cutoff_witness :
  integrate 25 3 [0; 1/2; 1; 3/2] (1/2)
    (dpd_potential 25 [0; 1/2; 1; 3/2]) (dpd_force 25 [0; 1/2; 1; 3/2])
    [-1; -1/2; 0; 0]
  = integrate 25 3 [0; 1/2; 1; 3/2] (1/2)
      (dpd_potential 25 [0; 1/2; 1; 3/2]) (dpd_force 25 [0; 1/2; 1; 3/2])
      [-1; -1/2; 7; 9].
Proof.
  apply (integrate_ignores_beyond_cutoff 25 3 [0; 1/2; 1; 3/2] (1/2)
           [-1; -1/2; 0; 0] [-1; -1/2; 7; 9]); try reflexivity.
  intros i Hi Hlt. simpl in Hi.
  destruct i as [|[|[|[|i]]]]; simpl in *; try reflexivity; try lra; lia.
Defined.

Lemma trapezoid_scale (c : R) (y : list R) (dx : R) :
  Spec.trapezoid (map (fun v => c * v) y) dx = c * Spec.trapezoid y dx.
Proof.
  induction y as [|a y IH]; [simpl; ring|].
  destruct y as [|b t]; [simpl; ring|].
  change (dx * ((c * a + c * b) / 2)
          + Spec.trapezoid (map (fun v => c * v) (b :: t)) dx
          = c * (dx * ((a + b) / 2) + Spec.trapezoid (b :: t) dx)).
  rewrite IH. field.
Qed.

Lemma integrand_scale (k : nat) (c : R) (w : R -> R) (r h : list R) :
  Spec.integrand k r (map (fun x => c * w x) r) h
  = map (fun v => c * v) (Spec.integrand k r (map w r) h).
Proof.
  revert h; induction r as [|ri r IH]; intros [|hi h]; simpl;
    try reflexivity.
  rewrite IH. f_equal. ring.
Qed.

Lemma phi_linear (A x : R) : Spec.phi A x = A * Spec.phi 1 x.
Proof. unfold Spec.phi; destruct (Rlt_dec x 1); field. Qed.

Lemma f_linear (A x : R) : Spec.f A x = A * Spec.f 1 x.
Proof. unfold Spec.f; destruct (Rlt_dec x 1); ring. Qed.

(** X12.  For a fixed correlation array (aligned with the grid), e and the
    excess pressure p - rho are proportional to the amplitude: with e1
    and p1 the values for A = 1, the script's potential, force and
    integrals for amplitude A give e = A e1 and p = rho + A (p1 - rho). *)
Theorem integrate_linear_in_amplitude (A rho : R) (r : list R) (dr : R)
  (h : list R) :
  length h = length r ->
  exists e1 p1,
    integrate 1 rho r dr (dpd_potential 1 r) (dpd_force 1 r) h = Ok (e1, p1) /\
    integrate A rho r dr (dpd_potential A r) (dpd_force A r) h
    = Ok (A * e1, rho + A * (p1 - rho)).
Proof.
  intros Hh. unfold integrate.
  rewrite !energy_density_aligned, !virial_pressure_aligned;
    try assumption; try apply dpd_potential_length;
    try apply dpd_force_length.
  cbn [rbind]. do 2 eexists. split; [reflexivity|].
  unfold Spec.energy, Spec.pressure.
  rewrite !dpd_potential_map, !dpd_force_map.
  rewrite (map_ext (Spec.phi A) (fun x => A * Spec.phi 1 x) (phi_linear A)).
  rewrite (map_ext (Spec.f A) (fun x => A * Spec.f 1 x) (f_linear A)).
  rewrite !integrand_scale, !trapezoid_scale.
  do 2 f_equal; field.
Qed.

Lemma integrate_linear_in_amplitude_witness :
  exists e1 p1,
    integrate 1 3 [0; 1/2; 1] (1/2)
      (dpd_potential 1 [0; 1/2; 1]) (dpd_force 1 [0; 1/2; 1]) [-1; -1/2; 0]
    = Ok (e1, p1) /\
    integrate 25 3 [0; 1/2; 1] (1/2)
      (dpd_potential 25 [0; 1/2; 1]) (dpd_force 25 [0; 1/2; 1]) [-1; -1/2; 0]
    = Ok (25 * e1, 3 + 25 * (p1 - 3)).
Proof.
  apply (integrate_linear_in_amplitude 25 3 [0; 1/2; 1] (1/2) [-1; -1/2; 0]).
  reflexivity.
Defined.

Lemma trapezoid_monotone (y y' : list R) (dx : R) :
  0 <= dx -> Forall2 Rle y y' ->
  Spec.trapezoid y dx <= Spec.trapezoid y' dx.
Proof.
  intros Hdx H. induction H as [|a a' y y' Ha Hy IH]; [lra|].
  destruct Hy as [|b b' t t' Hb Ht]; [simpl; lra|].
  change (dx * ((a + b) / 2) + Spec.trapezoid (b :: t) dx
          <= dx * ((a' + b') / 2) + Spec.trapezoid (b' :: t') dx).
  assert (dx * ((a + b) / 2) <= dx * ((a' + b') / 2)) by nra.
  lra.
Qed.

Lemma integrand_monotone (k : nat) (r w h h' : list R) :
  Forall (fun x => 0 <= x) r -> Forall (fun v => 0 <= v) w ->
  Forall2 Rle h h' ->
  Forall2 Rle (Spec.integrand k r w h) (Spec.integrand k r w h').
Proof.
  intros Hr; revert w h h'.
  induction Hr as [|ri r Hri Hr IH]; intros w h h' Hw Hh.
  - destruct w, h, h'; constructor.
  - destruct Hw as [|wi w Hwi Hw]; [destruct h, h'; constructor|].
    destruct Hh as [|hi hi' h h' Hhi Hh]; simpl; constructor.
    + apply Rmult_le_compat_l; [|exact Hhi].
      apply Rmult_le_pos; [now apply pow_le | exact Hwi].
    + now apply IH.
Qed.

Lemma Forall2_length_R (h h' : list R) :
  Forall2 Rle h h' -> length h = length h'.
Proof. induction 1; simpl; congruence. Qed.

(** X13.  For a repulsive amplitude A >= 0, a grid of nonnegative radii and a
    nonnegative step, e and p grow with the correlation: if h <= h'
    at every grid point then e(h) <= e(h') and p(h) <= p(h'). *)
Theorem integrate_monotone_in_correlation (A rho : R) (r : list R) (dr : R)
  (h h' : list R) :
  0 <= A -> Forall (fun x => 0 <= x) r -> 0 <= dr ->
  length h = length r -> Forall2 Rle h h' ->
  exists e p e' p',
    integrate A rho r dr (dpd_potential A r) (dpd_force A r) h = Ok (e, p) /\
    integrate A rho r dr (dpd_potential A r) (dpd_force A r) h' = Ok (e', p') /\
    e <= e' /\ p <= p'.
Proof.
  intros HA Hr Hdr Hh Hle.
  assert (Hh' : length h' = length r)
    by (rewrite <- (Forall2_length_R h h' Hle); exact Hh).
  unfold integrate.
  rewrite !energy_density_aligned, !virial_pressure_aligned;
    try assumption; try apply dpd_potential_length;
    try apply dpd_force_length.
  cbn [rbind]. do 4 eexists.
  split; [reflexivity | split; [reflexivity |]].
  assert (Hphi : Forall (fun v => 0 <= v) (dpd_potential A r)).
  { rewrite dpd_potential_map. apply Forall_map, Forall_forall.
    intros x _. unfold Spec.phi. destruct (Rlt_dec x 1); [|lra].
    apply Rmult_le_pos; [lra | apply pow2_ge_0]. }
  assert (Hf : Forall (fun v => 0 <= v) (dpd_force A r)).
  { rewrite dpd_force_map. apply Forall_map, Forall_forall.
    intros x _. unfold Spec.f. destruct (Rlt_dec x 1); [|lra].
    apply Rmult_le_pos; lra. }
  pose proof (trapezoid_monotone _ _ dr Hdr
                (integrand_monotone 2 r _ h h' Hr Hphi Hle)) as He.
  pose proof (trapezoid_monotone _ _ dr Hdr
                (integrand_monotone 3 r _ h h' Hr Hf Hle)) as Hp.
  assert (Hc : 0 <= 2 * PI * rho ^ 2).
  { apply Rmult_le_pos; [pose proof PI_RGT_0; lra | apply pow2_ge_0]. }
  unfold Spec.energy, Spec.pressure. split; nra.
Qed.

Lemma integrate_monotone_in_correlation_witness :
  exists e p e' p',
    integrate 25 3 [0; 1/2; 1] (1/2)
      (dpd_potential 25 [0; 1/2; 1]) (dpd_force 25 [0; 1/2; 1]) [-1; -1/2; 0]
    = Ok (e, p) /\
    integrate 25 3 [0; 1/2; 1] (1/2)
      (dpd_potential 25 [0; 1/2; 1]) (dpd_force 25 [0; 1/2; 1]) [0; 0; 0]
    = Ok (e', p') /\
    e <= e' /\ p <= p'.
Proof.
  apply (integrate_monotone_in_correlation 25 3 [0; 1/2; 1] (1/2)
           [-1; -1/2; 0] [0; 0; 0]);
    try lra; try reflexivity; repeat constructor; lra.
Defined.

(** ** The force is minus the derivative of the potential *)

Lemma potential_at_phi (A x : R) : potential_at A x = Spec.phi A x.
Proof. unfold potential_at. now rewrite dpd_potential_map. Qed.

Lemma force_at_f (A x : R) : force_at A x = Spec.f A x.
Proof. unfold force_at. now rewrite dpd_force_map. Qed.

(** On any grid, the built arrays hold these values at the grid points. *)
Lemma dpd_arrays_pointwise (A : R) (r : list R) :
  dpd_potential A r = map (potential_at A) r /\
  dpd_force A r = map (force_at A) r.
Proof.
  rewrite dpd_potential_map, dpd_force_map.
  split; apply map_ext; intros x; symmetry;
    [apply potential_at_phi | apply force_at_f].
Qed.

(** The potential over a step [h], to first order: the remainder is [A]
    times a number between 0 and h^2/2, on either side of the cut-off
    and across it. *)
Lemma phi_increment (A x h : R) :
  exists t, 0 <= t <= h * h / 2 /\
    Spec.phi A (x + h) - Spec.phi A x + h * Spec.f A x = A * t.
Proof.
  unfold Spec.phi, Spec.f.
  destruct (Rlt_dec (x + h) 1) as [H1|H1]; destruct (Rlt_dec x 1) as [H2|H2].
  - exists (h * h / 2). split; [nra | field].
  - exists ((1 - x - h) * (1 - x - h) / 2). split; [nra | field].
  - exists ((1 - x) * (h - (1 - x) / 2)). split; [nra | field].
  - exists 0. split; [nra | ring].
Qed.

(** X14.  Line 68 is the derivative of line 67 with the sign changed, at every
    radius, the cut-off r = 1 included: the potential is differentiable
    there and both sides are 0. *)
Theorem force_is_minus_derivative (A x : R) :
  derivable_pt_lim (potential_at A) x (- force_at A x).
Proof.
  intros eps Heps.
  assert (Hd : 0 < eps / (Rabs A + 1)).
  { apply Rdiv_lt_0_compat; [exact Heps | pose proof (Rabs_pos A); lra]. }
  exists (mkposreal _ Hd). intros h Hh Hlt. simpl in Hlt.
  rewrite (potential_at_phi A (x + h)), (potential_at_phi A x), force_at_f.
  destruct (phi_increment A x h) as (t & [Ht0 Ht1] & Ht).
  replace ((Spec.phi A (x + h) - Spec.phi A x) / h - - Spec.f A x)
    with (A * (t / h)) by (field_simplify_eq; [lra | exact Hh]).
  rewrite Rabs_mult.
  assert (Hs : Rabs (t / h) <= Rabs h).
  { unfold Rdiv. rewrite Rabs_mult, Rabs_inv, (Rabs_right t) by lra.
    pose proof (Rabs_pos_lt h Hh) as Hpos.
    apply (Rmult_le_reg_r (Rabs h)); [exact Hpos|].
    rewrite Rmult_assoc, Rinv_l by lra.
    assert (Hsq : Rabs h * Rabs h = h * h).
    { rewrite <- Rabs_mult. apply Rabs_right. nra. }
    nra. }
  pose proof (Rabs_pos A) as HA. pose proof (Rabs_pos (t / h)) as Hs0.
  assert (Heq : eps = eps / (Rabs A + 1) * (Rabs A + 1))
    by (field; lra).
  rewrite Heq. set (d := eps / (Rabs A + 1)) in *. nra.
Qed.

(** ** The mean-field constants *)

Lemma quintic_lim (a b c x : R) :
  derivable_pt_lim (fun y => a * y ^ 3 + b * y ^ 4 + c * y ^ 5) x
    (a * (3 * x ^ 2) + b * (4 * x ^ 3) + c * (5 * x ^ 4)).
Proof.
  pose proof (derivable_pt_lim_scal _ a x _ (derivable_pt_lim_pow x 3)) as H3.
  pose proof (derivable_pt_lim_scal _ b x _ (derivable_pt_lim_pow x 4)) as H4.
  pose proof (derivable_pt_lim_scal _ c x _ (derivable_pt_lim_pow x 5)) as H5.
  pose proof (derivable_pt_lim_plus _ _ x _ _
                (derivable_pt_lim_plus _ _ x _ _ H3 H4) H5) as H.
  unfold plus_fct, mult_real_fct in H. simpl pred in H.
  replace (a * (3 * x ^ 2) + b * (4 * x ^ 3) + c * (5 * x ^ 4))
    with (a * (INR 3 * x ^ 2) + b * (INR 4 * x ^ 3) + c * (INR 5 * x ^ 4)).
  - exact H.
  - simpl INR. ring.
Qed.

(** A function that is a quartic on [0, 1] is Riemann integrable there,
    with the integral its antiderivative gives. *)
Lemma quartic_integral (a b c : R) (g : R -> R) :
  (forall x, 0 <= x <= 1 ->
     g x = a * (3 * x ^ 2) + b * (4 * x ^ 3) + c * (5 * x ^ 4)) ->
  exists pr : Riemann_integrable g 0 1, RiemannInt pr = a + b + c.
Proof.
  intros Hg.
  set (F := fun y => a * y ^ 3 + b * y ^ 4 + c * y ^ 5).
  set (P := fun x => a * (3 * x ^ 2) + b * (4 * x ^ 3) + c * (5 * x ^ 4)).
  assert (dF : derivable F).
  { intros x. exists (P x). apply quintic_lim. }
  assert (HP : derive F dF = P).
  { apply functional_extensionality. intros x. unfold derive.
    apply derive_pt_eq_0, quintic_lim. }
  assert (cont : continuity (derive F dF)).
  { rewrite HP. unfold P. reg. }
  pose (C := @mkC1 F dF cont).
  pose proof (RiemannInt_P32 C 0 1) as prP.
  assert (prg : Riemann_integrable g 0 1).
  { apply (@Riemann_integrable_ext (derive F dF) g 0 1); [|exact prP].
    intros x Hx. rewrite HP. symmetry. apply Hg.
    rewrite Rmin_left, Rmax_right in Hx; lra. }
  exists prg.
  rewrite (RiemannInt_P18 prg prP); [| lra |].
  - rewrite (FTC_Riemann C prP). simpl. unfold F. ring.
  - intros x Hx. simpl. rewrite HP. apply Hg. lra.
Qed.

(** X15.  The constants A/60 and A/20 of lines 85-86 are the integrals the
    comment of lines 80-83 names, for the potential and force that lines
    67-68 build: r^2 phi(r) and r^3 f(r) are Riemann integrable over
    [0, 1], with integrals A/60 and A/20; and for a correlation array
    that is 0 at every grid point the script returns 2 pi rho^2 times
    the first and rho + 2 pi rho^2 / 3 times the second, on any grid. *)
Theorem mean_field_constants_are_integrals (A : R) :
  exists (pe : Riemann_integrable (fun x => x ^ 2 * potential_at A x) 0 1)
         (pp : Riemann_integrable (fun x => x ^ 3 * force_at A x) 0 1),
    RiemannInt pe = A / 60 /\ RiemannInt pp = A / 20 /\
    forall (rho : R) (r : list R) (dr : R),
      integrate A rho r dr (dpd_potential A r) (dpd_force A r)
        (map (fun _ => 0) r)
      = Ok (2 * PI * rho ^ 2 * RiemannInt pe,
            rho + 2 * PI * rho ^ 2 / 3 * RiemannInt pp).
Proof.
  destruct (quartic_integral (A / 6) (- A / 4) (A / 10)
              (fun x => x ^ 2 * potential_at A x)) as [pe He].
  { intros x Hx. rewrite potential_at_phi. unfold Spec.phi.
    destruct (Rlt_dec x 1); [field|].
    replace x with 1 by lra. field. }
  destruct (quartic_integral 0 (A / 4) (- A / 5)
              (fun x => x ^ 3 * force_at A x)) as [pp Hp].
  { intros x Hx. rewrite force_at_f. unfold Spec.f.
    destruct (Rlt_dec x 1); [field|].
    replace x with 1 by lra. field. }
  exists pe, pp.
  split; [rewrite He; field | split; [rewrite Hp; field |]].
  intros rho r dr. unfold integrate.
  rewrite energy_density_aligned, virial_pressure_aligned;
    try apply dpd_potential_length; try apply dpd_force_length;
    try apply length_map.
  cbn [rbind]. unfold Spec.energy, Spec.pressure.
  rewrite !trapezoid_zero by (apply integrand_zero, map_zero_all).
  rewrite He, Hp. do 2 f_equal; field.
Qed.

(** ** The display window on an ascending grid *)

Lemma select_none (y x : list R) (c : R) :
  Forall (fun a => c <= a) x -> np.select y (np.less x c) = [].
Proof.
  intros Hx; revert y; induction Hx as [|a x Ha Hx IH]; intros [|b y];
    simpl; try reflexivity.
  unfold np.ltb. destruct (Rlt_dec a c); [lra | apply IH].
Qed.

Lemma select_prefix (x : list R) (c : R) :
  StronglySorted Rle x ->
  exists k,
    Forall (fun a => a < c) (firstn k x) /\
    Forall (fun a => c <= a) (skipn k x) /\
    forall y, length y = length x ->
              np.select y (np.less x c) = firstn k y.
Proof.
  induction 1 as [|a x Hs IH Ha].
  - exists 0%nat. repeat split; try constructor.
    intros [|b y] Hy; [reflexivity | discriminate].
  - destruct (Rlt_dec a c) as [Hlt|Hge].
    + destruct IH as (k & Hk1 & Hk2 & Hk3). exists (S k).
      split; [simpl; constructor; assumption|].
      split; [exact Hk2|].
      intros [|b y] Hy; [discriminate|]. injection Hy as Hy.
      simpl. unfold np.ltb. destruct (Rlt_dec a c); [|contradiction].
      now rewrite (Hk3 y Hy).
    + exists 0%nat.
      assert (Hall : Forall (fun v => c <= v) (a :: x)).
      { constructor; [lra|].
        apply (Forall_impl _ (fun v (Hv : a <= v) => Rle_trans c a v
                                 (Rnot_lt_le _ _ Hge) Hv) Ha). }
      split; [constructor | split; [exact Hall |]].
      intros y _. now apply select_none.
Qed.

(** X16.  On an ascending grid the mask [x < xmax] of lines 115 and 126 cuts
    an initial stretch: for some k, the abscissae and the ordinates
    handed to [plt.plot] are the first k entries of the grid and of the
    field, those k grid points are below the limit and every later one
    is not. *)
Theorem window_of_ascending_grid (x y : list R) (c : R) :
  Sorted Rle x -> length y = length x ->
  exists k,
    np.take_mask x (np.less x c) = Ok (firstn k x) /\
    np.take_mask y (np.less x c) = Ok (firstn k y) /\
    Forall (fun a => a < c) (firstn k x) /\
    Forall (fun a => c <= a) (skipn k x).
Proof.
  intros Hs Hy.
  assert (Hss : StronglySorted Rle x).
  { apply Sorted_StronglySorted; [|exact Hs].
    intros a b d. apply Rle_trans. }
  destruct (select_prefix x c Hss) as (k & Hk1 & Hk2 & Hk3).
  exists k. rewrite !take_mask_less, Hy, Nat.eqb_refl.
  rewrite (Hk3 x eq_refl), (Hk3 y Hy). auto.
Qed.

Lemma window_of_ascending_grid_witness :
  exists k,
    np.take_mask [0; 1/2; 1; 3/2] (np.less [0; 1/2; 1; 3/2] 1)
    = Ok (firstn k [0; 1/2; 1; 3/2]) /\
    np.take_mask [5; 6; 7; 8] (np.less [0; 1/2; 1; 3/2] 1)
    = Ok (firstn k [5; 6; 7; 8]) /\
    Forall (fun a => a < 1) (firstn k [0; 1/2; 1; 3/2]) /\
    Forall (fun a => 1 <= a) (skipn k [0; 1/2; 1; 3/2]).
Proof.
  apply (window_of_ascending_grid [0; 1/2; 1; 3/2] [5; 6; 7; 8] 1);
    [|reflexivity].
  repeat constructor; lra.
Defined.

(** ** The shape of the potential *)

(** X17.  A soft, bounded repulsion: for A >= 0 and radii 0 <= r <= r', the
    built potential and force do not increase with the radius and are
    at most their values A/2 and A at contact. *)
Theorem potential_and_force_decrease (A r r' : R) :
  0 <= A -> 0 <= r -> r <= r' ->
  potential_at A r' <= potential_at A r /\ potential_at A r <= A / 2 /\
  force_at A r' <= force_at A r /\ force_at A r <= A.
Proof.
  intros HA Hr Hrr.
  rewrite !(potential_at_phi A r), (potential_at_phi A r'),
    !(force_at_f A r), (force_at_f A r').
  unfold Spec.phi, Spec.f.
  assert (Hsq : forall u v, 0 <= u -> u <= v -> A / 2 * u ^ 2 <= A / 2 * v ^ 2).
  { intros u v Hu Huv. apply Rmult_le_compat_l; [lra|].
    apply pow_incr; lra. }
  destruct (Rlt_dec r 1) as [H1|H1]; destruct (Rlt_dec r' 1) as [H2|H2];
    try (exfalso; lra).
  - split; [apply Hsq; lra|].
    split; [replace (A / 2) with (A / 2 * 1 ^ 2) at 2 by ring;
            apply Hsq; lra|].
    split; nra.
  - split; [apply Rmult_le_pos; [lra | apply pow2_ge_0]|].
    split; [replace (A / 2) with (A / 2 * 1 ^ 2) at 2 by ring;
            apply Hsq; lra|].
    split; nra.
  - repeat split; lra.
Qed.

Lemma potential_and_force_decrease_witness :
  potential_at 25 (3/4) <= potential_at 25 (1/2) /\
  potential_at 25 (1/2) <= 25 / 2 /\
  force_at 25 (3/4) <= force_at 25 (1/2) /\ force_at 25 (1/2) <= 25.
Proof.
  apply (potential_and_force_decrease 25 (1/2) (3/4)); lra.
Defined.

Lemma f_difference (A x y : R) :
  exists s, Rabs s <= Rabs (x - y) /\ Spec.f A x - Spec.f A y = A * s.
Proof.
  unfold Spec.f.
  destruct (Rlt_dec x 1) as [H1|H1]; destruct (Rlt_dec y 1) as [H2|H2].
  - exists (y - x). split; [|ring].
    rewrite <- (Rabs_Ropp (x - y)). apply Req_le. f_equal. ring.
  - exists (1 - x). split; [|ring].
    unfold Rabs. do 2 destruct Rcase_abs; lra.
  - exists (y - 1). split; [|ring].
    unfold Rabs. do 2 destruct Rcase_abs; lra.
  - exists 0. split; [|ring].
    rewrite Rabs_R0. apply Rabs_pos.
Qed.

(** X18.  The force has no jump, at the cut-off or elsewhere: between any two
    radii it changes by at most |A| times their distance. *)
Theorem force_is_lipschitz (A x y : R) :
  Rabs (force_at A x - force_at A y) <= Rabs A * Rabs (x - y).
Proof.
  rewrite (force_at_f A x), (force_at_f A y).
  destruct (f_difference A x y) as (s & Hs & ->).
  rewrite Rabs_mult. apply Rmult_le_compat_l; [apply Rabs_pos | exact Hs].
Qed.

(** ** Plotting and printing *)

(** X19.  The plots print nothing: giving or dropping [--show] leaves stdout
    as it is, whether or not the plotting ends with an exception. *)
Theorem show_does_not_print (b : bool) (args : Args) (grid : Grid)
  (solve : Solver) (reference : Reference) :
  stdout (snd (run (with_show b args) grid solve reference))
  = stdout (snd (run args grid solve reference)).
Proof. rewrite !run_stdout. reflexivity. Qed.

(** ** The reference engine's window *)



